(** * seeq: sparse Hamiltonians for lattices and coupled transmons

    A shallow embedding of three modules of the seeq library,

    - [seeq/tools.py]           (module [Tools]):   [lowest_eigenstates],
                                                    [lowest_eigenvalues];
    - [seeq/models/cqed.py]     (module [Cqed]):    class [Transmons];
    - [seeq/models/lattice.py]  (module [Lattice]): class [Regular3DLattice];

    together with the fragment of numpy / scipy.sparse these modules use
    (module [Linalg]).

    Numbers.  The Python code computes in IEEE doubles.  The properties
    studied here are stated "up to rounding", so a real number is modelled
    by an exact rational, the canonical rationals [Qc] of the Standard
    Library, whose equality is Leibniz equality and which still compute. *)

From Stdlib Require Import QArith Qcanon Lia.
From stdpp Require Import base numbers list list_numbers sorting gmap.

Local Open Scope Qc_scope.

(* ===================================================================== *)
(** * Python values that can fail *)
(* ===================================================================== *)

Module Py.

(** The exceptions that the modelled code, or the numpy and scipy calls
    it makes, can raise.  [InvalidPosition] is the [Exception] raised by
    [coupling_at] for a position outside the lattice. *)
Inductive exn : Type :=
  | ValueError | TypeError | IndexError | AssertionError | InvalidPosition.

(** The outcome of a call: a value, or an exception. *)
Inductive result (A : Type) : Type :=
  | Ok (a : A)
  | Raise (e : exn).
Global Arguments Ok {A} a.
Global Arguments Raise {A} e.

Global Instance exn_eq_dec : EqDecision exn.
Proof. solve_decision. Defined.

Global Instance result_ret : MRet result := fun A a => Ok a.
Global Instance result_bind : MBind result := fun A B f r =>
  match r with
  | Ok a => f a
  | Raise e => Raise e
  end.

(** Evaluation of a list comprehension whose body can raise: left to
    right, stopping at the first exception. *)
Fixpoint map_result {A B : Type} (f : A -> result B) (l : list A) : result (list B) :=
  match l with
  | [] => Ok []
  | a :: l' => b ← f a; bs ← map_result f l'; Ok (b :: bs)
  end.

Definition is_ok {A : Type} (r : result A) : Prop :=
  match r with Ok _ => True | Raise _ => False end.


End Py.

(* ===================================================================== *)
(** * The numpy / scipy.sparse fragment *)
(* ===================================================================== *)

Module Linalg.
Import Py.

(** The entries of a two-dimensional array, row index first. *)
Definition Mat : Type := nat -> nat -> Qc.

(** [msum n f = f 0 + f 1 + ... + f (n-1)]. *)
Fixpoint msum (n : nat) (f : nat -> Qc) : Qc :=
  match n with
  | O => 0
  | S n' => msum n' f + f n'
  end.

(** A scipy sparse matrix: a shape and the value of every entry.  The
    storage format (csr, coo, dia, bsr) does not change any value, and
    is left out.  scipy refuses to add matrices of different shapes; the
    sums below take the shape of the left operand, and the operands have
    the same shape wherever the modelled classes add them. *)
Record spmatrix : Type := SpMatrix {
  sp_rows : nat;
  sp_cols : nat;
  sp_at   : Mat
}.

(** Two sparse matrices are the same matrix when they have the same
    shape and agree on every entry inside it. *)
Definition sp_equiv (A B : spmatrix) : Prop :=
  sp_rows A = sp_rows B /\ sp_cols A = sp_cols B /\
  forall i j, (i < sp_rows A)%nat -> (j < sp_cols A)%nat ->
              sp_at A i j = sp_at B i j.

(** [sp.eye(n)] *)
Definition sp_eye (n : nat) : spmatrix :=
  SpMatrix n n (fun i j => if decide (i = j /\ (i < n)%nat) then 1 else 0).

(** [A + B] *)
Definition sp_add (A B : spmatrix) : spmatrix :=
  SpMatrix (sp_rows A) (sp_cols A) (fun i j => sp_at A i j + sp_at B i j).

(** [A - B] *)
Definition sp_sub (A B : spmatrix) : spmatrix :=
  SpMatrix (sp_rows A) (sp_cols A) (fun i j => sp_at A i j - sp_at B i j).

(** [c * A] for a scalar [c] *)
Definition sp_scale (c : Qc) (A : spmatrix) : spmatrix :=
  SpMatrix (sp_rows A) (sp_cols A) (fun i j => c * sp_at A i j).

(** [A / c] for a scalar [c] *)
Definition sp_div (A : spmatrix) (c : Qc) : spmatrix :=
  SpMatrix (sp_rows A) (sp_cols A) (fun i j => sp_at A i j / c).

(** [A * B] between two sparse matrices is the matrix product. *)
Definition sp_mul (A B : spmatrix) : spmatrix :=
  SpMatrix (sp_rows A) (sp_cols B)
    (fun i j => msum (sp_cols A) (fun k => sp_at A i k * sp_at B k j)).

(** [A ** 2] *)
Definition sp_sq (A : spmatrix) : spmatrix := sp_mul A A.

(** [A.T] *)
Definition sp_T (A : spmatrix) : spmatrix :=
  SpMatrix (sp_cols A) (sp_rows A) (fun i j => sp_at A j i).

(** [sp.kron(A, B)]: block [(i / p, j / q)] is [A[i / p, j / q] * B]
    where [(p, q)] is the shape of [B]. *)
Definition sp_kron (A B : spmatrix) : spmatrix :=
  SpMatrix (sp_rows A * sp_rows B)%nat (sp_cols A * sp_cols B)%nat
    (fun i j => sp_at A (i / sp_rows B)%nat (j / sp_cols B)%nat
                * sp_at B (i mod sp_rows B)%nat (j mod sp_cols B)%nat).

(** [A @ x] for a sparse [A] and a dense vector or matrix [x] whose
    number of rows is the number of columns of [A].  A vector is a
    matrix with one column. *)
Definition sp_matmul (A : spmatrix) (x : Mat) : Mat :=
  fun i c => msum (sp_cols A) (fun k => sp_at A i k * x k c).

(** Dense arithmetic, entry by entry. *)
Definition arr_add (x y : Mat) : Mat := fun i c => x i c + y i c.
Definition arr_sub (x y : Mat) : Mat := fun i c => x i c - y i c.
Definition arr_scale (a : Qc) (x : Mat) : Mat := fun i c => a * x i c.

(** Dense arrays are compared entry by entry. *)
Definition arr_eq (x y : Mat) : Prop := forall i c, x i c = y i c.

(** The Kronecker product of three factors, [A ⊗ B ⊗ C], written with
    its entries: the row index [i] splits into the digits
    [(i / (pB*pC), (i / pC) mod pB, i mod pC)] where [pB] and [pC] are
    the numbers of rows of [B] and [C]; the same for the column. *)
Definition kron3 (A B C : spmatrix) : spmatrix :=
  SpMatrix (sp_rows A * sp_rows B * sp_rows C)%nat
           (sp_cols A * sp_cols B * sp_cols C)%nat
    (fun i j =>
       sp_at A (i / (sp_rows B * sp_rows C))%nat (j / (sp_cols B * sp_cols C))%nat
       * sp_at B ((i / sp_rows C) mod sp_rows B)%nat ((j / sp_cols C) mod sp_cols B)%nat
       * sp_at C (i mod sp_rows C)%nat (j mod sp_cols C)%nat).

(** ** Dense arrays *)

(** A two-dimensional [numpy.ndarray]: a shape and the entries. *)
Record ndarray2 : Type := NdArray2 {
  nd_rows : nat;
  nd_cols : nat;
  nd_at   : Mat
}.

(** [np.ones((r, c))] *)
Definition np_ones2 (r c : nat) : ndarray2 := NdArray2 r c (fun _ _ => 1).

(** numpy's broadcasting rule for one axis: equal lengths, or one of
    them is 1; anything else is a [ValueError]. *)
Definition bshape (a b : nat) : result nat :=
  if decide (a = b) then Ok a
  else if decide (a = 1%nat) then Ok b
  else if decide (b = 1%nat) then Ok a
  else Raise ValueError.

(** The index read along an axis of length [d] for the index [i] of the
    broadcast result: an axis of length 1 is repeated. *)
Definition bidx (d i : nat) : nat := if decide (d = 1%nat) then O else i.

(** A binary operation applied entry by entry, with broadcasting. *)
Definition nd_zip (op : Qc -> Qc -> Qc) (x y : ndarray2) : result ndarray2 :=
  r ← bshape (nd_rows x) (nd_rows y);
  c ← bshape (nd_cols x) (nd_cols y);
  Ok (NdArray2 r c (fun i j =>
        op (nd_at x (bidx (nd_rows x) i) (bidx (nd_cols x) j))
           (nd_at y (bidx (nd_rows y) i) (bidx (nd_cols y) j)))).

(** [x * y] and [x + y] on dense arrays *)
Definition nd_mul : ndarray2 -> ndarray2 -> result ndarray2 := nd_zip Qcmult.
Definition nd_add : ndarray2 -> ndarray2 -> result ndarray2 := nd_zip Qcplus.

(** [x.T] *)
Definition nd_T (x : ndarray2) : ndarray2 :=
  NdArray2 (nd_cols x) (nd_rows x) (fun i j => nd_at x j i).

(** [x / c] and [c * x] for a scalar [c] *)
Definition nd_div (x : ndarray2) (c : Qc) : ndarray2 :=
  NdArray2 (nd_rows x) (nd_cols x) (fun i j => nd_at x i j / c).
Definition nd_scale (c : Qc) (x : ndarray2) : ndarray2 :=
  NdArray2 (nd_rows x) (nd_cols x) (fun i j => c * nd_at x i j).


(** [sp.diags(d, k, shape=(r, c))] for [k >= 0]: [d[i]] at [(i, i + k)]. *)
Definition sp_diags (d : nat -> Qc) (k : nat) (r c : nat) : spmatrix :=
  SpMatrix r c (fun i j =>
    if decide (j = (i + k)%nat /\ (i < r)%nat /\ (j < c)%nat) then d i else 0).

(** ** What [sum(...)] returns

    Python's [sum] starts from the integer [0] and adds the items from
    left to right; the sum of no item at all is that integer, not a
    matrix.  [0 + A] and [A + 0] are [A] for a sparse matrix and for a
    dense array alike. *)
Inductive pysum (A : Type) : Type :=
  | Int0
  | Val (a : A).
Global Arguments Int0 {A}.
Global Arguments Val {A} a.

Definition py_add {A : Type} (add : A -> A -> A) (x y : pysum A) : pysum A :=
  match x, y with
  | Int0, _ => y
  | Val a, Int0 => Val a
  | Val a, Val b => Val (add a b)
  end.

Definition py_sum {A : Type} (add : A -> A -> A) (items : list A) : pysum A :=
  fold_left (fun acc a => py_add add acc (Val a)) items Int0.

(** [H @ x] where [H] is what a sum of sparse matrices returned: numpy
    refuses a scalar operand of [@]. *)
Definition py_matmul (H : pysum spmatrix) (x : Mat) : result Mat :=
  match H with
  | Int0 => Raise ValueError
  | Val A => Ok (sp_matmul A x)
  end.

(** [x - s] and [x + s] for a dense array [x] and the result [s] of a
    sum of dense arrays. *)
Definition arr_sub_sum (x : Mat) (s : pysum Mat) : Mat :=
  match s with Int0 => x | Val y => arr_sub x y end.
Definition arr_add_sum (x : Mat) (s : pysum Mat) : Mat :=
  match s with Int0 => x | Val y => arr_add x y end.

(** Results of [apply]-like calls are compared as dense arrays, and two
    calls that raise are compared by the exception. *)
Definition result_arr_eq (r1 r2 : result Mat) : Prop :=
  match r1, r2 with
  | Ok x, Ok y => arr_eq x y
  | Raise e1, Raise e2 => e1 = e2
  | _, _ => False
  end.

(** A sum of sparse matrices [S] and a sum of dense arrays [s] agree on
    [x], up to the factor [σ]: both are the integer [0], or
    [S @ x = σ * s] and [S] has [D] columns. *)
Definition sum_agrees (D : nat) (σ : Qc) (x : Mat)
    (S : pysum spmatrix) (s : pysum Mat) : Prop :=
  match S, s with
  | Int0, Int0 => True
  | Val A, Val y => sp_cols A = D /\ forall i c, sp_matmul A x i c = σ * y i c
  | _, _ => False
  end.

End Linalg.

(* ===================================================================== *)
(** * seeq/tools.py *)
(* ===================================================================== *)

Module Tools.
Import Linalg.

(** Insertion of [a] in a list sorted by [key]; [a] goes before the
    first element whose key is not smaller. *)
Fixpoint insert_by {A : Type} (key : A -> Qc) (a : A) (l : list A) : list A :=
  match l with
  | [] => [a]
  | b :: l' =>
      if decide (key a ≤ key b) then a :: b :: l'
      else b :: insert_by key a l'
  end.

Definition sort_by {A : Type} (key : A -> Qc) (l : list A) : list A :=
  foldr (insert_by key) [] l.

(** The order in which [sort_by key] leaves a list. *)
Definition key_le {A : Type} (key : A -> Qc) (x y : A) : Prop := key x ≤ key y.

(** [np.sort(a)] for a one-dimensional array. *)
Definition np_sort (a : list Qc) : list Qc := sort_by id a.

(** [np.argsort(a)]: the indices that sort [a].  Equal values keep their
    order here; numpy's default sort may order them differently, which
    changes neither the sorted values nor the facts proved below. *)
Definition np_argsort (a : list Qc) : list nat :=
  (sort_by fst (zip a (seq 0 (length a)))).*2.

(** [a[ndx]] for a one-dimensional array [a] and an index array. *)
Definition take_idx (a : list Qc) (ndx : list nat) : list Qc :=
  (fun k => default 0 (a !! k)) <$> ndx.

(** [ψ[:, ndx]]: column [c] of the result is column [ndx[c]] of [ψ]. *)
Definition take_cols (ψ : Mat) (ndx : list nat) : Mat :=
  fun r c => ψ r (default O (ndx !! c)).

Section Spectrum.
(** The operator handed to the solver, and the solver itself:
    [sp.linalg.eigsh(H, neig, which='SA', return_eigenvectors=...)].
    ARPACK is outside the library; nothing is assumed about the order
    of what it returns. *)
Context {operator : Type}.
Variable eigsh_vectors : operator -> nat -> list Qc * Mat.
Variable eigsh_values  : operator -> nat -> list Qc.

Definition lowest_eigenstates (H : operator) (neig : nat) : list Qc * Mat :=
  let '(lam, ψ) := eigsh_vectors H neig in
  let ndx := np_argsort lam in
  (take_idx lam ndx, take_cols ψ ndx).

Definition lowest_eigenvalues (H : operator) (neig : nat) : list Qc :=
  let lam := eigsh_values H neig in
  np_sort lam.
End Spectrum.

End Tools.

(* ===================================================================== *)
(** * seeq/models/cqed.py *)
(* ===================================================================== *)

Module Cqed.
Import Py Linalg.

(** A per-qubit parameter ([Ec], [EJ], [ng]) as the caller gives it: a
    Python scalar or a one-dimensional array. *)
Inductive param : Type :=
  | Scalar (v : Qc)
  | Array (a : list Qc).

(** The coupling [g] as the caller gives it: a scalar, a one-dimensional
    array, or a matrix. *)
Inductive coupling : Type :=
  | GScalar (v : Qc)
  | GVector (a : list Qc)
  | GMatrix (a : ndarray2).

(** [p * np.ones(n)]: a scalar fills the array; an array of length [n]
    is kept; an array of length 1 is repeated; when [n = 1] any array is
    kept with its own length; other lengths do not broadcast. *)
Definition broadcast1 (p : param) (n : nat) : result (list Qc) :=
  match p with
  | Scalar v => Ok (replicate n v)
  | Array a =>
      if decide (length a = n) then Ok a
      else if decide (length a = 1%nat) then Ok (replicate n (default 0 (a !! O)))
      else if decide (n = 1%nat) then Ok a
      else Raise ValueError
  end.

(** The coupling seen as a two-dimensional operand of a broadcast: a
    scalar behaves as shape (1, 1), a vector as shape (1, len). *)
Definition coupling_array (g : coupling) : ndarray2 :=
  match g with
  | GScalar v => NdArray2 1 1 (fun _ _ => v)
  | GVector a => NdArray2 1 (length a) (fun _ j => default 0 (a !! j))
  | GMatrix a => a
  end.

(** [g * np.ones((n, n))] *)
Definition broadcast2 (g : coupling) (n : nat) : result ndarray2 :=
  nd_mul (coupling_array g) (np_ones2 n n).

(** The nested function [qubit_operator(op, j, N)] of [__init__]:
<<
    d = op.shape[0]
    il = sp.eye(d**j, format=format)
    ir = sp.eye(d**(N-j-1), format=format)
    return sp.kron(il, sp.kron(op, ir))
>>
    For [j >= N] the exponent [N-j-1] is negative, [d**(N-j-1)] is a
    float and [sp.eye] refuses it. *)
Definition qubit_operator (op : spmatrix) (j N : nat) : result spmatrix :=
  let d := sp_rows op in
  if decide (j < N)%nat then
    let il := sp_eye (d ^ j) in
    let ir := sp_eye (d ^ (N - j - 1)) in
    Ok (sp_kron il (sp_kron op ir))
  else Raise TypeError.

(** A [Transmons] object: the attributes set by [__init__].  [shape] is
    the attribute set by [LinearOperator.__init__]. *)
Record Transmons : Type := mkTransmons {
  nqubits : nat;
  Ec   : list Qc;
  ng   : list Qc;
  EJ   : list Qc;
  shape : nat * nat;
  nmax : nat;
  N    : list spmatrix;
  Hcap : pysum spmatrix;
  HJJ  : list spmatrix;
  g    : ndarray2
}.

(** The zip of three sequences, as long as the shortest one. *)
Fixpoint zip3 {A B C : Type} (a : list A) (b : list B) (c : list C) : list (A * B * C) :=
  match a, b, c with
  | x :: a', y :: b', z :: c' => (x, y, z) :: zip3 a' b' c'
  | _, _, _ => []
  end.

(** The number operator of one qubit,
    [sp.diags(np.arange(-nmax, nmax + 1, 1), 0, shape=(dim, dim))]. *)
Definition number_operator (nmax : nat) : spmatrix :=
  let dim := (2 * nmax + 1)%nat in
  sp_diags (fun i => Qc_of_Z (Z.of_nat i - Z.of_nat nmax)) 0 dim dim.

(** [Sup = sp.diags([1.0], [1], shape=(dim,dim))] *)
Definition raising_operator (nmax : nat) : spmatrix :=
  let dim := (2 * nmax + 1)%nat in
  sp_diags (fun _ => 1) 1 dim dim.

(** One item of the sum that makes [Hcap]:
    [(4.0*Ec) * (N-ng*Id)**2] for [ng, Ec, N] of the zip. *)
Definition capacitive_term (Id : spmatrix) (item : Qc * Qc * spmatrix) : spmatrix :=
  let '(ng, Ec, N) := item in
  sp_scale (Qc_of_Z 4 * Ec) (sp_sq (sp_sub N (sp_scale ng Id))).

(** [Transmons.__init__(self, nqubits, Ec, EJ, g, ng, nmax)] *)
Definition init (nqubits : nat) (Ec EJ : param) (g : coupling) (ng : param)
    (nmax : nat) : result Transmons :=
  Ec ← broadcast1 Ec nqubits;
  ng ← broadcast1 ng nqubits;
  EJ ← broadcast1 EJ nqubits;
  if decide (length (Ec : list Qc) = length (ng : list Qc)
             /\ length ng = length (EJ : list Qc)
             /\ length EJ = nqubits) then
    let dim := (2 * nmax + 1)%nat in
    let fulldim := (dim ^ nqubits)%nat in
    let N := number_operator nmax in
    let Sup := raising_operator nmax in
    let Sdo := sp_T Sup in
    Ns ← map_result (fun j => qubit_operator N j nqubits) (seq 0 nqubits);
    let Id := sp_eye fulldim in
    let Hcap := py_sum sp_add (capacitive_term Id <$> zip3 ng Ec Ns) in
    HJJ ← map_result
             (fun jEJ : nat * Qc =>
                qubit_operator (sp_div (sp_add Sup Sdo) 2) (fst jEJ) nqubits)
             (zip (seq 0 (length EJ)) EJ);
    g ← broadcast2 g nqubits;
    gs ← nd_add g (nd_T g);
    Ok (mkTransmons nqubits Ec ng EJ (fulldim, fulldim) nmax Ns Hcap HJJ
          (nd_div gs 2))
  else Raise AssertionError.

(** [self.N[i]]; the index is always below [len(self.N)] where the
    class uses it. *)
Definition N_at (self : Transmons) (i : nat) : spmatrix :=
  default (SpMatrix 0 0 (fun _ _ => 0)) (N self !! i).

(** The pairs [(i, j)] visited by
    [for i in range(self.nqubits) for j in range(i) if self.g[i,j]]. *)
Definition coupled_pairs (self : Transmons) : list (nat * nat) :=
  i ← seq 0 (nqubits self);
  j ← seq 0 i;
  if decide (nd_at (g self) i j = 0) then [] else [(i, j)].

(** [Transmons.hamiltonian(self)] *)
Definition hamiltonian (self : Transmons) : pysum spmatrix :=
  py_add sp_add
    (py_add sp_add (Hcap self)
       (py_sum sp_add
          ((fun item : Qc * spmatrix =>
              let '(EJ, hi) := item in sp_scale (- EJ) hi)
             <$> zip (EJ self) (HJJ self))))
    (py_sum sp_add
       ((fun ij : nat * nat =>
           let '(i, j) := ij in
           sp_scale (2 * nd_at (g self) i j) (sp_mul (N_at self i) (N_at self j)))
          <$> coupled_pairs self)).

(** [Transmons.apply(self, ψ)] *)
Definition apply (self : Transmons) (ψ : Mat) : result Mat :=
  let g := g self in
  let N := N_at self in
  h ← py_matmul (Hcap self) ψ;
  Ok (arr_add_sum
        (arr_sub_sum h
           (py_sum arr_add
              ((fun item : Qc * spmatrix =>
                  let '(EJi, hi) := item in arr_scale EJi (sp_matmul hi ψ))
                 <$> zip (EJ self) (HJJ self))))
        (py_sum arr_add
           ((fun ij : nat * nat =>
               let '(i, j) := ij in
               arr_scale (2 * nd_at g i j) (sp_matmul (N i) (sp_matmul (N j) ψ)))
              <$> coupled_pairs self))).

(** [Transmons.tune(self, EJ=None, g=None)], on the values of the
    attributes: every attribute of [out] is the one of [self] unless it
    is assigned. *)
Definition tune (self : Transmons) (EJ : option param) (g : option coupling)
    : result Transmons :=
  let out := self in
  out ← match EJ with
        | None => Ok out
        | Some EJ =>
            EJ ← broadcast1 EJ (nqubits self);
            Ok (mkTransmons (nqubits out) (Ec out) (ng out) EJ (shape out)
                  (nmax out) (N out) (Hcap out) (HJJ out) (Cqed.g out))
        end;
  match g with
  | None => Ok out
  | Some g =>
      g ← broadcast2 g (nqubits self);
      gs ← nd_add g (nd_T g);
      Ok (mkTransmons (nqubits out) (Ec out) (ng out) (Cqed.EJ out) (shape out)
            (nmax out) (N out) (Hcap out) (HJJ out) (nd_scale (1/2) gs))
  end.

(** The lifted operator as the construction rule words it:
    [I(d^j) ⊗ op ⊗ I(d^(N-j-1))], where [d] is the dimension of [op]. *)
Definition lifted_operator (op : spmatrix) (j N : nat) : spmatrix :=
  let d := sp_rows op in
  kron3 (sp_eye (d ^ j)) op (sp_eye (d ^ (N - j - 1))).

(** The [Transmons] objects a program can hold: those returned by the
    constructor, and those returned by [tune] on such an object. *)
Inductive instance : Transmons -> Prop :=
  | instance_init nqubits Ec EJ g ng nmax self :
      init nqubits Ec EJ g ng nmax = Ok self -> instance self
  | instance_tune self EJ g out :
      instance self -> tune self EJ g = Ok out -> instance out.

(** The shapes that [__init__] establishes and [tune] keeps: there is one
    lifted number operator and one lifted tunneling operator per qubit,
    all of them, and [Hcap], have [D] columns; [Hcap] is the integer [0]
    only when there is no qubit. *)
Definition shapes_ok (D : nat) (self : Transmons) : Prop :=
  length (N self) = nqubits self /\
  Forall (fun M => sp_cols M = D) (N self) /\
  Forall (fun M => sp_cols M = D) (HJJ self) /\
  match Hcap self with
  | Int0 => nqubits self = O /\ HJJ self = []
  | Val A => sp_cols A = D
  end.

(** The object [self] with another value for [EJ], and with another
    value for [g]. *)
Definition with_EJ (self : Transmons) (EJ : list Qc) : Transmons :=
  mkTransmons (nqubits self) (Ec self) (ng self) EJ (shape self)
    (nmax self) (N self) (Hcap self) (HJJ self) (g self).

End Cqed.

(* ===================================================================== *)
(** * seeq/models/lattice.py *)
(* ===================================================================== *)

Module Lattice.
Import Py Linalg.

(** A lattice position, the tuple [(X, Y, Z)] of Python integers. *)
Abbreviation coordinate := (Z * Z * Z)%type.

(** [enumerate(l)] *)
Definition enumerate {A : Type} (l : list A) : list (nat * A) :=
  zip (seq 0 (length l)) l.

(** The sum of a list of numbers. *)
Definition qsum (l : list Qc) : Qc := foldr Qcplus 0 l.

(** [sp.csr_matrix((data, (row, col)), shape=(r, c))]: the entry at
    [(i, j)] is the sum of the data of all the triples at that place. *)
Definition csr_matrix (triples : list (Qc * nat * nat)) (r c : nat) : spmatrix :=
  SpMatrix r c (fun i j =>
    qsum ((fun t : Qc * nat * nat => t.1.1)
            <$> filter (fun t : Qc * nat * nat => t.1.2 = i /\ t.2 = j) triples)).

(** The list comprehension that builds [coord]:
<<
    [(X,Y,Z) for X in range(X0,X0+sizes[0])
             for Y in range(Y0,Y0+sizes[1])
             for Z in range(Z0,Z0+sizes[2]) if condition(X, Y, Z)]
>> *)
Definition sites (sizes : Z * Z * Z) (r0 : coordinate)
    (condition : Z -> Z -> Z -> bool) : list coordinate :=
  let '(X_0, Y_0, Z_0) := r0 in
  X ← seqZ X_0 sizes.1.1;
  Y ← seqZ Y_0 sizes.1.2;
  Z ← seqZ Z_0 sizes.2;
  if condition X Y Z then [(X, Y, Z)] else [].

(** [{vector: ndx for ndx, vector in enumerate(coord)}]: items are
    stored from left to right, a later item replaces an earlier one with
    the same key. *)
Definition index_map (coord : list coordinate) : gmap coordinate nat :=
  fold_left (fun (m : gmap coordinate nat) (item : nat * coordinate) =>
               <[item.2 := item.1]> m)
            (enumerate coord) ∅.

(** The list comprehension that builds [hops]:
<<
    [(J, i, ndx_map[dest]) for i, orig in enumerate(coord)
                           for J, dest in hopping( *orig)
                           if dest in ndx_map]
>> *)
Definition hop_triples (hopping : Z -> Z -> Z -> list (Qc * coordinate))
    (coord : list coordinate) (ndx_map : gmap coordinate nat)
    : list (Qc * nat * nat) :=
  item ← enumerate coord;
  let '(i, (X, Y, Z)) := item in
  hop ← hopping X Y Z;
  let '(J, dest) := hop in
  match ndx_map !! dest with
  | Some k => [(J, i, k)]
  | None => []
  end.

(** A [Regular3DLattice] object: the attributes set by
    [Lattice.__init__] ([_H], [size], [dimension]) and by
    [Regular3DLattice.__init__]. *)
Record Regular3DLattice : Type := mkLattice {
  _H : spmatrix;
  size : nat;
  dimension : nat;
  coord : list coordinate;
  ndx_map : gmap coordinate nat;
  Xmin : Z; Xmax : Z;
  Ymin : Z; Ymax : Z;
  Zmin : Z; Zmax : Z
}.

(** [min(a)] and [max(a)] of a column that has a first element. *)
Definition min_of (a0 : Z) (a : list Z) : Z := foldr Z.min a0 a.
Definition max_of (a0 : Z) (a : list Z) : Z := foldr Z.max a0 a.

(** [Regular3DLattice.__init__(self, sizes, hopping, r0, condition)].

    [np.array(l)] of an empty list is a one-dimensional array of shape
    [(0,)], and slicing it with two indices, [hops[:,0]] or
    [coord[:,0]], raises [IndexError]. *)
Definition init (sizes : Z * Z * Z)
    (hopping : Z -> Z -> Z -> list (Qc * coordinate))
    (r0 : coordinate) (condition : option (Z -> Z -> Z -> bool))
    : result Regular3DLattice :=
  let condition := default (fun _ _ _ => true) condition in
  let coord := sites sizes r0 condition in
  let ndx_map := index_map coord in
  let hops := hop_triples hopping coord ndx_map in
  let L := base.size ndx_map in
  match hops with
  | [] => Raise IndexError
  | _ :: _ =>
      let H := csr_matrix hops L L in
      let dimension :=
        if decide (1 < sizes.2)%Z then 3%nat
        else if decide (1 < sizes.1.2)%Z then 2%nat
        else 1%nat in
      match coord with
      | [] => Raise IndexError
      | (x0, y0, z0) :: rest =>
          Ok (mkLattice H (sp_rows H) dimension coord ndx_map
                (min_of x0 (rest.*1.*1)) (max_of x0 (rest.*1.*1))
                (min_of y0 (rest.*1.*2)) (max_of y0 (rest.*1.*2))
                (min_of z0 (rest.*2)) (max_of z0 (rest.*2)))
      end
  end.

(** [Regular3DLattice.coupling_at(self, r, g)]:
<<
    ndx = self.ndx_map.get(r, None)
    if ndx is None:
        raise Exception(f'Emitter position {r} is not in the lattice.')
    gr = np.zeros(self.size)
    gr[ndx] = g
    return gr
>>
    An index outside [gr] would raise [IndexError]. *)
Definition coupling_at (self : Regular3DLattice) (r : coordinate) (g : Qc)
    : result (list Qc) :=
  match ndx_map self !! r with
  | None => Raise InvalidPosition
  | Some ndx =>
      let gr := replicate (size self) 0 in
      if decide (ndx < length gr)%nat then Ok (<[ndx := g]> gr)
      else Raise IndexError
  end.

(** [Regular3DLattice.vertex_index(self, r)]: [self.ndx_map[r]]. *)
Definition vertex_index (self : Regular3DLattice) (r : coordinate) : option nat :=
  ndx_map self !! r.

(** [hopping( *r)] for a position [r]. *)
Definition hopping_at (hopping : Z -> Z -> Z -> list (Qc * coordinate))
    (r : coordinate) : list (Qc * coordinate) :=
  let '(X, Y, Z) := r in hopping X Y Z.


(** The lexicographic order on positions, [X] first. *)
Definition lex_lt (a b : coordinate) : Prop :=
  (a.1.1 < b.1.1 \/
   (a.1.1 = b.1.1 /\ (a.1.2 < b.1.2 \/ (a.1.2 = b.1.2 /\ a.2 < b.2))))%Z.

(** A position is inside the box of the given sizes and corner. *)
Definition in_box (sizes : Z * Z * Z) (r0 r : coordinate) : Prop :=
  (r0.1.1 <= r.1.1 < r0.1.1 + sizes.1.1 /\
   r0.1.2 <= r.1.2 < r0.1.2 + sizes.1.2 /\
   r0.2 <= r.2 < r0.2 + sizes.2)%Z.

(** The triples that one item [(i, orig)] of [enumerate(coord)]
    contributes to [hops]. *)
Definition site_triples (hopping : Z -> Z -> Z -> list (Qc * coordinate))
    (ndx_map : gmap coordinate nat) (item : nat * coordinate)
    : list (Qc * nat * nat) :=
  hop ← hopping_at hopping item.2;
  match ndx_map !! hop.2 with
  | Some k => [(hop.1, item.1, k)]
  | None => []
  end.

End Lattice.

(* ===================================================================== *)
(** * Transmons objects in the Python store *)
(* ===================================================================== *)

(** [Transmons.tune] makes [copy.copy(self)], a shallow copy: a new
    object whose attributes refer to the same arrays, lists and matrices
    as the attributes of [self].  To follow what is shared, objects live
    in a store and attributes hold references. *)

Module CqedHeap.
Import Py Linalg.

(** A reference is the position of a cell in the store. *)
Abbreviation ref := nat.

(** The attributes of a [Transmons] object that hold a mutable object. *)
Inductive field : Type := FEc | Fng | FEJ | FN | FHcap | FHJJ | Fg.

(** The attribute dictionary of a [Transmons] object.  Python integers
    and tuples cannot be modified; they are kept by value. *)
Record attrs : Type := Attrs {
  a_nqubits : nat;
  a_shape : nat * nat;
  a_nmax : nat;
  a_Ec : ref;
  a_ng : ref;
  a_EJ : ref;
  a_N : ref;
  a_Hcap : ref;
  a_HJJ : ref;
  a_g : ref
}.

(** What a cell of the store holds: a one- or two-dimensional array, a
    list of sparse matrices, what a sum of sparse matrices returned, or
    a [Transmons] object. *)
Inductive cell : Type :=
  | CArr1 (a : list Qc)
  | CArr2 (a : ndarray2)
  | COps (l : list spmatrix)
  | CSum (s : pysum spmatrix)
  | CObj (o : attrs).

Abbreviation heap := (list cell).

(** A new object is stored at the end; its reference has never been
    used before. *)
Definition alloc (h : heap) (c : cell) : heap * ref := (h ++ [c], length h).


Definition set_attr (o : attrs) (f : field) (r : ref) : attrs :=
  match f with
  | FEc => Attrs (a_nqubits o) (a_shape o) (a_nmax o) r (a_ng o) (a_EJ o)
             (a_N o) (a_Hcap o) (a_HJJ o) (a_g o)
  | Fng => Attrs (a_nqubits o) (a_shape o) (a_nmax o) (a_Ec o) r (a_EJ o)
             (a_N o) (a_Hcap o) (a_HJJ o) (a_g o)
  | FEJ => Attrs (a_nqubits o) (a_shape o) (a_nmax o) (a_Ec o) (a_ng o) r
             (a_N o) (a_Hcap o) (a_HJJ o) (a_g o)
  | FN => Attrs (a_nqubits o) (a_shape o) (a_nmax o) (a_Ec o) (a_ng o) (a_EJ o)
            r (a_Hcap o) (a_HJJ o) (a_g o)
  | FHcap => Attrs (a_nqubits o) (a_shape o) (a_nmax o) (a_Ec o) (a_ng o) (a_EJ o)
               (a_N o) r (a_HJJ o) (a_g o)
  | FHJJ => Attrs (a_nqubits o) (a_shape o) (a_nmax o) (a_Ec o) (a_ng o) (a_EJ o)
              (a_N o) (a_Hcap o) r (a_g o)
  | Fg => Attrs (a_nqubits o) (a_shape o) (a_nmax o) (a_Ec o) (a_ng o) (a_EJ o)
            (a_N o) (a_Hcap o) (a_HJJ o) r
  end.



(** [obj.f = value] where [value] is a newly made object. *)
Definition setattr (h : heap) (obj : ref) (f : field) (value : cell) : result heap :=
  match h !! obj with
  | Some (CObj o) =>
      let '(h, r) := alloc h value in
      Ok (<[obj := CObj (set_attr o f r)]> h)
  | _ => Raise TypeError
  end.


(** [Transmons.tune(self, EJ=None, g=None)]:
<<
    out = copy.copy(self)
    if EJ is not None:
        out.EJ = EJ * np.ones(self.nqubits)
    if g is not None:
        g = g * np.ones((self.nqubits,self.nqubits))
        out.g = 0.5 * (g + g.T)
    return out
>> *)
Definition tune (h : heap) (self : ref) (EJ : option Cqed.param)
    (g : option Cqed.coupling) : result (heap * ref) :=
  match h !! self with
  | Some (CObj o) =>
      let '(h, out) := alloc h (CObj o) in
      h ← match EJ with
          | None => Ok h
          | Some EJ =>
              EJ ← Cqed.broadcast1 EJ (a_nqubits o);
              setattr h out FEJ (CArr1 EJ)
          end;
      h ← match g with
          | None => Ok h
          | Some g =>
              g ← Cqed.broadcast2 g (a_nqubits o);
              gs ← nd_add g (nd_T g);
              setattr h out Fg (CArr2 (nd_scale (1/2) gs))
          end;
      Ok (h, out)
  | _ => Raise TypeError
  end.









End CqedHeap.

(* ===================================================================== *)
(** * seeq/models/lattice.py: the named lattices *)
(* ===================================================================== *)

Module Lattices.
Import Py Linalg Lattice.

(** [Lattice.hamiltonian(self)] *)
Definition hamiltonian (self : Regular3DLattice) : spmatrix := _H self.

(** [Lattice._matvec(self, v)] and [Lattice._matmat(self, A)]: both are
    [self._H @ v]. *)
Definition _matvec (self : Regular3DLattice) (v : Mat) : Mat :=
  sp_matmul (_H self) v.
Definition _matmat (self : Regular3DLattice) (A : Mat) : Mat :=
  sp_matmul (_H self) A.

(** A one-dimensional array seen as a matrix with one column. *)
Definition column (v : list Qc) : Mat := fun i _ => default 0 (v !! i).

(** A lattice of one of the named classes: the [Regular3DLattice] part
    and the attributes [J] (a number or a tuple of numbers, kept as a
    list) and [ω]. *)
Record NamedLattice : Type := mkNamed {
  lattice : Regular3DLattice;
  J : list Qc;
  ω : Qc
}.

(** The nested function [hopping1d] of [Lattice1D.__init__]. *)
Definition hopping1d (J ω : Qc) (X Y Z : Z) : list (Qc * coordinate) :=
  [(ω, (X, Y, Z)); (J, (X + 1, Y, Z)%Z); (J, (X - 1, Y, Z)%Z)].

(** [Lattice1D.__init__(self, L, J, ω, r0=..., condition=...)] *)
Definition Lattice1D (L : Z) (J ω : Qc) (r0 : coordinate)
    (condition : option (Z -> Z -> Z -> bool)) : result NamedLattice :=
  base ← init (L, 1, 1)%Z (hopping1d J ω) r0 condition;
  Ok (mkNamed base [J] ω).

(** The nested function [hopping2d] of [SquareLattice.__init__] and of
    [RhombusLattice.__init__]. *)
Definition hopping2d (Jx Jy ω : Qc) (X Y Z : Z) : list (Qc * coordinate) :=
  [(ω, (X, Y, Z)); (Jx, (X + 1, Y, Z)%Z); (Jx, (X - 1, Y, Z)%Z);
   (Jy, (X, Y + 1, Z)%Z); (Jy, (X, Y - 1, Z)%Z)].

(** [SquareLattice.__init__(self, Lx, Ly=None, Jx, Jy=None, ω, ...)] *)
Definition SquareLattice (Lx : Z) (Ly : option Z) (Jx : Qc) (Jy : option Qc)
    (ω : Qc) (r0 : coordinate) (condition : option (Z -> Z -> Z -> bool))
    : result NamedLattice :=
  let Ly := default Lx Ly in
  let Jy := default Jx Jy in
  base ← init (Lx, Ly, 1)%Z (hopping2d Jx Jy ω) r0 condition;
  Ok (mkNamed base [Jx; Jy] ω).

(** The nested function [condition] of [RhombusLattice.__init__]:
<<
    X -= X0
    Y -= Y0
    return ((np.abs(X-Y) <= L) & (np.abs(X+Y) <= L))+0
>> *)
Definition rhombus_condition (L X_0 Y_0 : Z) (X Y Z : Z) : bool :=
  let X := (X - X_0)%Z in
  let Y := (Y - Y_0)%Z in
  bool_decide (Z.abs (X - Y) <= L)%Z && bool_decide (Z.abs (X + Y) <= L)%Z.

(** [RhombusLattice.__init__(self, L, Jx, Jy=None, ω, r0)]; [r0] is
    the center of the rhombus. *)
Definition RhombusLattice (L : Z) (Jx : Qc) (Jy : option Qc) (ω : Qc)
    (r0 : coordinate) : result NamedLattice :=
  let Jy := default Jx Jy in
  let '(X_0, Y_0, Z_0) := r0 in
  let r0 := (X_0 - L, Y_0 - L, Z_0)%Z in
  base ← init (2 * L + 1, 2 * L + 1, 1)%Z (hopping2d Jx Jy ω) r0
            (Some (rhombus_condition L X_0 Y_0));
  Ok (mkNamed base [Jx; Jy] ω).

(** The nested function [hopping3d] of [CubicLattice.__init__]. *)
Definition hopping3d (Jx Jy Jz ω : Qc) (X Y Z : Z) : list (Qc * coordinate) :=
  [(ω, (X, Y, Z));
   (Jx, (X + 1, Y, Z)%Z); (Jx, (X - 1, Y, Z)%Z);
   (Jy, (X, Y + 1, Z)%Z); (Jy, (X, Y - 1, Z)%Z);
   (Jz, (X, Y, Z + 1)%Z); (Jz, (X, Y, Z - 1)%Z)].

(** [CubicLattice.__init__(self, Lx, Ly=None, Lz=None, Jx, Jy=None,
    Jz=None, ω, ...)] *)
Definition CubicLattice (Lx : Z) (Ly Lz : option Z) (Jx : Qc)
    (Jy Jz : option Qc) (ω : Qc) (r0 : coordinate)
    (condition : option (Z -> Z -> Z -> bool)) : result NamedLattice :=
  let Ly := default Lx Ly in
  let Lz := default Lx Lz in
  let Jy := default Jx Jy in
  let Jz := default Jx Jz in
  base ← init (Lx, Ly, Lz) (hopping3d Jx Jy Jz ω) r0 condition;
  Ok (mkNamed base [Jx; Jy; Jz] ω).

(** The nested function [bcc_hopping] of [BCCLattice.__init__]. *)
Definition bcc_hopping (J ω : Qc) (X Y Z : Z) : list (Qc * coordinate) :=
  [(ω, (X, Y, Z));
   (J, (X + 1, Y + 1, Z + 1)%Z); (J, (X - 1, Y - 1, Z + 1)%Z);
   (J, (X + 1, Y - 1, Z + 1)%Z); (J, (X - 1, Y + 1, Z + 1)%Z);
   (J, (X + 1, Y + 1, Z - 1)%Z); (J, (X - 1, Y - 1, Z - 1)%Z);
   (J, (X + 1, Y - 1, Z - 1)%Z); (J, (X - 1, Y + 1, Z - 1)%Z)].

(** The nested function [bcc_condition] of [BCCLattice.__init__]:
<<
    dX = X % 2
    dY = Y % 2
    dZ = Z % 2
    return (dX == dY) and (dX == dZ)
>>
    Python's [%] with a positive modulus is [Z.modulo]. *)
Definition bcc_condition (X Y Z : Z) : bool :=
  let dX := (X mod 2)%Z in
  let dY := (Y mod 2)%Z in
  let dZ := (Z mod 2)%Z in
  bool_decide (dX = dY) && bool_decide (dX = dZ).

(** [BCCLattice.__init__(self, Lx, Ly=None, Lz=None, J, ω, r0=...)] *)
Definition BCCLattice (Lx : Z) (Ly Lz : option Z) (J ω : Qc) (r0 : coordinate)
    : result NamedLattice :=
  let Ly := default Lx Ly in
  let Lz := default Lx Lz in
  base ← init (Lx, Ly, Lz) (bcc_hopping J ω) r0 (Some bcc_condition);
  Ok (mkNamed base [J] ω).

(** ** Notions used to state what the lattices satisfy *)

(** The total weight with which the rule sends the site [a] to the
    position [b]. *)
Definition weight (hopping : Z -> Z -> Z -> list (Qc * coordinate))
    (a b : coordinate) : Qc :=
  qsum (fst <$> filter (fun hop : Qc * coordinate => hop.2 = b)
                  (hopping_at hopping a)).

(** A translation by the displacement [d]. *)
Definition shift (a d : coordinate) : coordinate :=
  (a.1.1 + d.1.1, a.1.2 + d.1.2, a.2 + d.2)%Z.

(** A rule that is the same at every site: a list of weights and
    displacements. *)
Definition stencil_rule (stencil : list (Qc * coordinate)) (X Y Z : Z)
    : list (Qc * coordinate) :=
  (fun wd : Qc * coordinate => (wd.1, shift (X, Y, Z) wd.2)) <$> stencil.

(** The stencil with every displacement reversed. *)
Definition reversed (stencil : list (Qc * coordinate)) : list (Qc * coordinate) :=
  (fun wd : Qc * coordinate => (wd.1, (- wd.2.1.1, - wd.2.1.2, - wd.2.2)%Z))
    <$> stencil.

(** The matrix of a lattice is symmetric inside its shape. *)
Definition sp_symmetric (A : spmatrix) : Prop :=
  forall i k, (i < sp_rows A)%nat -> (k < sp_cols A)%nat ->
              sp_at A i k = sp_at A k i.

(** The outcome of a constructor for the list [admitted] of the sites
    that the box and the predicate admit: a lattice on exactly these
    sites when there is one at least, [IndexError] when there is none. *)
Definition built_on (r : result NamedLattice) (admitted : list coordinate) : Prop :=
  match r with
  | Ok lat => admitted ≠ [] /\ coord (lattice lat) = admitted
  | Raise e => e = IndexError /\ admitted = []
  end.

(** The positions of the rhombus of half-diagonal [L] centered at [r0],
    in the plane of [r0]. *)
Definition in_rhombus (L : Z) (r0 r : coordinate) : Prop :=
  (Z.abs ((r.1.1 - r0.1.1) - (r.1.2 - r0.1.2)) <= L /\
   Z.abs ((r.1.1 - r0.1.1) + (r.1.2 - r0.1.2)) <= L /\
   r.2 = r0.2)%Z.

End Lattices.

(* ===================================================================== *)
(** * seeq/models/cqed.py: the other methods of Transmons *)
(* ===================================================================== *)

Module CqedOps.
Import Py Linalg Cqed.

(** [Transmons._matvec(self, A)] and [Transmons._matmat(self, A)], the
    methods that [LinearOperator] calls: both are [self.apply(A)]. *)
Definition _matvec (self : Transmons) (A : Mat) : result Mat := apply self A.
Definition _matmat (self : Transmons) (A : Mat) : result Mat := apply self A.

(** What [frequencies] returns: one number when [n = 1], a tuple of
    numbers otherwise. *)
Inductive gaps : Type :=
  | Gap (x : Qc)
  | Gaps (l : list Qc).

(** [Transmons.frequencies(self, n)]:
<<
    λ = lowest_eigenvalues(self, neig=n+1)
    return tuple(λ[1:]-λ[0]) if n > 1 else λ[1]-λ[0]
>>
    An index outside the array raises [IndexError]; the slice [λ[1:]]
    never does. *)
Definition frequencies (eigsh_values : Transmons -> nat -> list Qc)
    (self : Transmons) (n : nat) : result gaps :=
  let lam := Tools.lowest_eigenvalues eigsh_values self (n + 1) in
  if decide (1 < n)%nat then
    match lam !! O with
    | Some l0 => Ok (Gaps ((fun l => l - l0) <$> drop 1 lam))
    | None => Raise IndexError
    end
  else
    match lam !! 1%nat with
    | Some l1 =>
        match lam !! O with
        | Some l0 => Ok (Gap (l1 - l0))
        | None => Raise IndexError
        end
    | None => Raise IndexError
    end.

(** ** Notions used to state what the Hamiltonian satisfies *)

Definition sp_diag (A : spmatrix) : Prop := forall i j, i ≠ j -> sp_at A i j = 0.


(** The charge of the basis state [i] of one qubit, [i - nmax]. *)
Definition charge (nmax i : nat) : Qc := Qc_of_Z (Z.of_nat i - Z.of_nat nmax).

(** What [qubit_operator] makes of the number operator and of the
    tunneling operator [(Sup+Sdo)/2] when there is one qubit: both
    identity factors are [sp.eye(1)]. *)
Definition single_N (nmax : nat) : spmatrix :=
  sp_kron (sp_eye 1) (sp_kron (number_operator nmax) (sp_eye 1)).
Definition single_HJJ (nmax : nat) : spmatrix :=
  sp_kron (sp_eye 1)
    (sp_kron (sp_div (sp_add (raising_operator nmax) (sp_T (raising_operator nmax))) 2)
       (sp_eye 1)).

(** The lengths that [__init__] checks with its [assert], and the
    shape of the stored coupling.  [tune] assigns [EJ] and [g] again
    without the [assert]: broadcasting against [np.ones(nqubits)] still
    forces the length when [nqubits] is not 1. *)
Definition lengths_ok (self : Transmons) : Prop :=
  length (Ec self) = nqubits self /\ length (ng self) = nqubits self /\
  length (N self) = nqubits self /\ length (HJJ self) = nqubits self /\
  (nqubits self ≠ 1%nat ->
   length (EJ self) = nqubits self /\
   nd_rows (g self) = nqubits self /\ nd_cols (g self) = nqubits self).


End CqedOps.

(* ===================================================================== *)
(** * Properties of seeq/tools.py *)
(* ===================================================================== *)

Module ToolsFacts.
Import Py Linalg Tools.

Section SortBy.
Context {A : Type} (key : A -> Qc).

Lemma insert_by_perm (a : A) (l : list A) : insert_by key a l ≡ₚ a :: l.
Proof.
  induction l as [|b l IH]; simpl; [done|].
  case_decide; [done|].
  rewrite IH. apply Permutation_swap.
Qed.

Lemma sort_by_perm (l : list A) : sort_by key l ≡ₚ l.
Proof.
  induction l as [|a l IH]; simpl; [done|].
  unfold sort_by in *. simpl. rewrite insert_by_perm. by f_equiv.
Qed.

Lemma insert_by_hd (a b : A) (l : list A) :
  key_le key b a -> HdRel (key_le key) b l ->
  HdRel (key_le key) b (insert_by key a l).
Proof.
  intros Hba Hl. destruct l as [|c l]; simpl; [by constructor|].
  case_decide; constructor; [done|]. by inversion Hl.
Qed.

Lemma insert_by_sorted (a : A) (l : list A) :
  Sorted (key_le key) l -> Sorted (key_le key) (insert_by key a l).
Proof.
  induction 1 as [|b l Hs IH Hhd]; simpl.
  - repeat constructor.
  - case_decide as Hle.
    + constructor; [by constructor|]. by constructor.
    + constructor; [done|]. apply insert_by_hd; [|done].
      unfold key_le. apply Qclt_le_weak. by apply Qclt_nge.
Qed.

Lemma sort_by_sorted (l : list A) : Sorted (key_le key) (sort_by key l).
Proof.
  induction l as [|a l IH]; [constructor|].
  unfold sort_by in *. simpl. by apply insert_by_sorted.
Qed.

Lemma sort_by_keys_sorted (l : list A) : Sorted Qcle (key <$> sort_by key l).
Proof. apply Sorted_fmap with (R1 := key_le key); [done|]. apply sort_by_sorted. Qed.

End SortBy.

Lemma np_sort_sorted (a : list Qc) : Sorted Qcle (np_sort a).
Proof. apply (sort_by_sorted id). Qed.

Lemma np_sort_perm (a : list Qc) : np_sort a ≡ₚ a.
Proof. apply sort_by_perm. Qed.

(** The sorted array depends on the values only, not on their order. *)
Lemma np_sort_order_irrelevant (a b : list Qc) : a ≡ₚ b -> np_sort a = np_sort b.
Proof.
  intros Hab. apply (Sorted_unique Qcle); try apply np_sort_sorted.
  by rewrite !np_sort_perm.
Qed.

Lemma np_argsort_perm (a : list Qc) : np_argsort a ≡ₚ seq 0 (length a).
Proof.
  unfold np_argsort. rewrite sort_by_perm.
  rewrite snd_zip; [done|]. by rewrite length_seq.
Qed.

Lemma zip_seq_lookup (a : list Qc) (k : nat) :
  Forall (fun p : Qc * nat => a !! (p.2 - k)%nat = Some p.1 /\ (k <= p.2)%nat)
         (zip a (seq k (length a))).
Proof.
  revert k. induction a as [|x a IH]; intros k; simpl; constructor; simpl.
  - by rewrite Nat.sub_diag.
  - eapply Forall_impl; [apply (IH (S k))|]. intros [v j] [Hv Hj]; simpl in *.
    split; [|lia]. replace (j - k)%nat with (S (j - S k)) by lia. done.
Qed.

Lemma take_idx_pairs (a : list Qc) (l : list (Qc * nat)) :
  Forall (fun p : Qc * nat => a !! p.2 = Some p.1) l ->
  take_idx a (l.*2) = l.*1.
Proof.
  unfold take_idx. induction 1 as [|[v j] l Hp HF IH]; csimpl in *; [done|].
  by rewrite Hp, IH.
Qed.

Lemma take_idx_argsort (a : list Qc) :
  take_idx a (np_argsort a) = (sort_by fst (zip a (seq 0 (length a)))).*1.
Proof.
  apply take_idx_pairs. rewrite sort_by_perm.
  eapply Forall_impl; [apply (zip_seq_lookup a 0)|].
  intros [v j] [Hv _]; simpl in *. by rewrite Nat.sub_0_r in Hv.
Qed.

Lemma take_idx_argsort_sorted (a : list Qc) :
  Sorted Qcle (take_idx a (np_argsort a)).
Proof. rewrite take_idx_argsort. apply sort_by_keys_sorted. Qed.

(** C6.  Whatever the order in which the solver returns its raw output,
    [lowest_eigenvalues] returns a non-decreasing sequence with as many
    values as the solver gave ([count] of them when the operator has that
    many eigenvalues), and a solver that returns the same values in
    another order leads to the same result.  [lowest_eigenstates] returns
    the eigenvalues in ascending order and permutes the columns of the
    eigenvector matrix with the same permutation [ndx] of [0 .. count-1]:
    entry [i] of the values is raw value [ndx[i]], and column [i] of the
    vectors is raw column [ndx[i]]. *)
Theorem lowest_eigen_sorted {operator : Type}
    (eigsh_vectors : operator -> nat -> list Qc * Mat)
    (eigsh_values : operator -> nat -> list Qc)
    (H : operator) (count : nat) :
  length (eigsh_values H count) = count ->
  length (eigsh_vectors H count).1 = count ->
  (let r := lowest_eigenvalues eigsh_values H count in
   Sorted Qcle r /\ length r = count /\
   forall eigsh_values' : operator -> nat -> list Qc,
     eigsh_values' H count ≡ₚ eigsh_values H count ->
     lowest_eigenvalues eigsh_values' H count = r) /\
  (let raw := eigsh_vectors H count in
   let out := lowest_eigenstates eigsh_vectors H count in
   Sorted Qcle out.1 /\ length out.1 = count /\
   exists ndx : list nat,
     ndx ≡ₚ seq 0 count /\
     forall i, (i < count)%nat ->
       exists k, ndx !! i = Some k /\ out.1 !! i = raw.1 !! k /\
                 forall r, out.2 r i = raw.2 r k).
Proof.
  intros Hvals Hvecs. split.
  - unfold lowest_eigenvalues. cbv zeta. split; [apply np_sort_sorted|]. split.
    + by rewrite np_sort_perm.
    + intros solver' Hperm. by apply np_sort_order_irrelevant.
  - unfold lowest_eigenstates. cbv zeta.
    destruct (eigsh_vectors H count) as [lam ψ]; simpl in *.
    split; [apply take_idx_argsort_sorted|].
    pose proof (np_argsort_perm lam) as Hperm. rewrite Hvecs in Hperm.
    split.
    + unfold take_idx. by rewrite length_fmap, Hperm, length_seq.
    + exists (np_argsort lam). split; [done|]. intros i Hi.
      destruct (lookup_lt_is_Some_2 (np_argsort lam) i) as [k Hk].
      { by rewrite Hperm, length_seq. }
      exists k. split; [done|]. split.
      * unfold take_idx. rewrite list_lookup_fmap, Hk. simpl.
        assert (k < length lam)%nat as Hlt.
        { apply list_elem_of_lookup_2 in Hk. rewrite Hperm in Hk.
          apply elem_of_seq in Hk. lia. }
        destruct (lookup_lt_is_Some_2 lam k Hlt) as [v Hv]. by rewrite Hv.
      * intros r. unfold take_cols. by rewrite Hk.
Qed.

(** The values 3, 1, 2 with the columns of a matrix whose column [c]
    holds [c] in every row. *)
Lemma lowest_eigen_sorted_witness :
  let vals := (fun (_ : unit) (_ : nat) => [Qc_of_Z 3; Qc_of_Z 1; Qc_of_Z 2]) in
  let vecs := (fun (_ : unit) (_ : nat) =>
                 ([Qc_of_Z 3; Qc_of_Z 1; Qc_of_Z 2],
                  (fun (_ c : nat) => Qc_of_Z (Z.of_nat c)))) in
  length (vals tt 3%nat) = 3%nat /\ length (vecs tt 3%nat).1 = 3%nat /\
  Sorted Qcle (lowest_eigenvalues vals tt 3) /\
  Sorted Qcle (lowest_eigenstates vecs tt 3).1.
Proof.
  intros vals vecs.
  pose proof (lowest_eigen_sorted vecs vals tt 3 eq_refl eq_refl) as [H1 H2].
  split; [reflexivity|]. split; [reflexivity|].
  split; [apply H1 | apply H2].
Defined.

End ToolsFacts.

(* ===================================================================== *)
(** * Properties of the numpy / scipy.sparse fragment *)
(* ===================================================================== *)

Module LinalgFacts.
Import Py Linalg.

Lemma msum_ext (n : nat) (f h : nat -> Qc) :
  (forall k, (k < n)%nat -> f k = h k) -> msum n f = msum n h.
Proof.
  induction n as [|n IH]; intros Hfh; simpl; [done|].
  rewrite IH by (intros; apply Hfh; lia). rewrite Hfh by lia. done.
Qed.

Lemma msum_plus (n : nat) (f h : nat -> Qc) :
  msum n (fun k => f k + h k) = msum n f + msum n h.
Proof. induction n as [|n IH]; simpl; [ring|]. rewrite IH. ring. Qed.

Lemma msum_scale (n : nat) (a : Qc) (f : nat -> Qc) :
  msum n (fun k => a * f k) = a * msum n f.
Proof. induction n as [|n IH]; simpl; [ring|]. rewrite IH. ring. Qed.

Lemma msum_scale_r (n : nat) (a : Qc) (f : nat -> Qc) :
  msum n (fun k => f k * a) = msum n f * a.
Proof. induction n as [|n IH]; simpl; [ring|]. rewrite IH. ring. Qed.

Lemma msum_zero (n : nat) : msum n (fun _ => 0) = 0.
Proof. induction n as [|n IH]; simpl; [done|]. rewrite IH. ring. Qed.

(** Exchange of two finite sums. *)
Lemma msum_swap (n m : nat) (f : nat -> nat -> Qc) :
  msum n (fun i => msum m (fun j => f i j))
  = msum m (fun j => msum n (fun i => f i j)).
Proof.
  induction n as [|n IH]; simpl.
  - by rewrite msum_zero.
  - rewrite IH. by rewrite <- msum_plus.
Qed.

(** [(A + B) @ x = A @ x + B @ x] when [A] and [B] have as many columns. *)
Lemma sp_matmul_add (A B : spmatrix) (x : Mat) (i c : nat) :
  sp_cols B = sp_cols A ->
  sp_matmul (sp_add A B) x i c = sp_matmul A x i c + sp_matmul B x i c.
Proof.
  intros HB. unfold sp_matmul. simpl. rewrite HB, <- msum_plus.
  apply msum_ext. intros. ring.
Qed.

(** [(a * A) @ x = a * (A @ x)] *)
Lemma sp_matmul_scale (a : Qc) (A : spmatrix) (x : Mat) (i c : nat) :
  sp_matmul (sp_scale a A) x i c = a * sp_matmul A x i c.
Proof.
  unfold sp_matmul. simpl. rewrite <- msum_scale.
  apply msum_ext. intros. ring.
Qed.

(** [(A * B) @ x = A @ (B @ x)] *)
Lemma sp_matmul_mul (A B : spmatrix) (x : Mat) (i c : nat) :
  sp_matmul (sp_mul A B) x i c = sp_matmul A (sp_matmul B x) i c.
Proof.
  unfold sp_matmul. simpl.
  rewrite (msum_ext _ _ (fun k => msum (sp_cols A)
             (fun l => sp_at A i l * (sp_at B l k * x k c)))).
  2:{ intros k _. rewrite <- msum_scale_r. apply msum_ext. intros. ring. }
  rewrite msum_swap. apply msum_ext. intros l _. by rewrite msum_scale.
Qed.

(** ** Broadcasting *)


Lemma nd_zip_rows_cols (op : Qc -> Qc -> Qc) (x y z : ndarray2) :
  nd_zip op x y = Ok z ->
  bshape (nd_rows x) (nd_rows y) = Ok (nd_rows z) /\
  bshape (nd_cols x) (nd_cols y) = Ok (nd_cols z) /\
  nd_at z = (fun i j =>
     op (nd_at x (bidx (nd_rows x) i) (bidx (nd_cols x) j))
        (nd_at y (bidx (nd_rows y) i) (bidx (nd_cols y) j))).
Proof.
  unfold nd_zip. destruct (bshape (nd_rows x) (nd_rows y)) as [r|]; [|done].
  destruct (bshape (nd_cols x) (nd_cols y)) as [c|]; [|done].
  simpl. intros [= <-]. done.
Qed.


(** ** Python sums *)

Lemma py_sum_snoc {A : Type} (add : A -> A -> A) (l : list A) (a : A) :
  py_sum add (l ++ [a]) = py_add add (py_sum add l) (Val a).
Proof. unfold py_sum. by rewrite fold_left_app. Qed.

(** ** Kronecker products *)

Lemma digits_mid (i p r : nat) : ((i mod (p * r)) / r = (i / r) mod p)%nat.
Proof.
  destruct (decide (r = O)) as [->|Hr].
  - by rewrite !Nat.div_0_r, Nat.Div0.mod_0_l.
  - rewrite (Nat.mul_comm p r), Nat.Div0.mod_mul_r.
    rewrite (Nat.mul_comm r), Nat.div_add by done.
    rewrite Nat.div_small; [done|]. by apply Nat.mod_upper_bound.
Qed.

Lemma digits_low (i p r : nat) : ((i mod (p * r)) mod r = i mod r)%nat.
Proof.
  rewrite (Nat.mul_comm p r), Nat.Div0.mod_mul_r.
  rewrite (Nat.mul_comm r), Nat.Div0.mod_add. apply Nat.Div0.mod_mod.
Qed.

(** Nesting to the right, as [sp.kron(A, sp.kron(B, C))]. *)
Lemma kron_right_nested (A B C : spmatrix) :
  sp_equiv (sp_kron A (sp_kron B C)) (kron3 A B C).
Proof.
  split; [simpl; lia|]. split; [simpl; lia|].
  intros i j _ _. simpl. rewrite !digits_mid, !digits_low. ring.
Qed.

(** Nesting to the left, as [sp.kron(sp.kron(A, B), C)]. *)
Lemma kron_left_nested (A B C : spmatrix) :
  sp_equiv (sp_kron (sp_kron A B) C) (kron3 A B C).
Proof.
  split; [simpl; lia|]. split; [simpl; lia|].
  intros i j _ _. simpl.
  rewrite !Nat.Div0.div_div, (Nat.mul_comm (sp_rows C)), (Nat.mul_comm (sp_cols C)).
  done.
Qed.

End LinalgFacts.

(* ===================================================================== *)
(** * Properties of seeq/models/cqed.py *)
(* ===================================================================== *)

Module CqedFacts.
Import Py Linalg LinalgFacts Cqed.

(** ** Lists built with a fallible body *)

Lemma map_result_Forall2 {A B : Type} (f : A -> result B) (l : list A) (r : list B) :
  map_result f l = Ok r -> Forall2 (fun a b => f a = Ok b) l r.
Proof.
  revert r. induction l as [|a l IH]; simpl; intros r.
  - intros [= <-]. constructor.
  - destruct (f a) as [b|] eqn:Hfa; simpl; [|done].
    destruct (map_result f l) as [bs|]; simpl; [|done].
    intros [= <-]. constructor; auto.
Qed.

(** ** Sums of matrices against sums of arrays *)

Lemma py_sum_cols (D : nat) (items : list spmatrix) :
  Forall (fun M => sp_cols M = D) items ->
  match py_sum sp_add items with
  | Int0 => items = []
  | Val A => sp_cols A = D
  end.
Proof.
  induction items as [|M items IH] using rev_ind; [done|].
  intros [HF HM%Forall_inv]%Forall_app. specialize (IH HF).
  rewrite py_sum_snoc. destruct (py_sum sp_add items); simpl; [done|].
  by destruct items.
Qed.

Lemma sum_agrees_items {X : Type} (D : nat) (σ : Qc) (x : Mat)
    (F : X -> spmatrix) (G : X -> Mat) (items : list X) :
  (forall it, it ∈ items ->
     sp_cols (F it) = D /\ forall i c, sp_matmul (F it) x i c = σ * G it i c) ->
  sum_agrees D σ x (py_sum sp_add (F <$> items)) (py_sum arr_add (G <$> items)).
Proof.
  induction items as [|it items IH] using rev_ind; intros Hit; [done|].
  rewrite !fmap_app. csimpl. rewrite !py_sum_snoc.
  destruct (Hit it) as [Hc Hv]; [apply elem_of_app; right; constructor|].
  assert (sum_agrees D σ x (py_sum sp_add (F <$> items))
            (py_sum arr_add (G <$> items))) as Hrec.
  { apply IH. intros ? ?. apply Hit. apply elem_of_app. by left. }
  unfold sum_agrees in *.
  destruct (py_sum sp_add (F <$> items)) as [|A],
           (py_sum arr_add (G <$> items)) as [|y]; simpl; try done.
  destruct Hrec as [HA Hy]. split; [done|]. intros i c.
  rewrite sp_matmul_add by congruence. rewrite Hy, Hv. unfold arr_add. ring.
Qed.

(** ** Shapes *)

Lemma pow_split (d j n : nat) : (j < n)%nat -> (d ^ j * (d * d ^ (n - j - 1)) = d ^ n)%nat.
Proof.
  intros Hj. rewrite <- Nat.pow_succ_r', <- Nat.pow_add_r. f_equal. lia.
Qed.

Lemma qubit_operator_shape (op L : spmatrix) (j n : nat) :
  qubit_operator op j n = Ok L ->
  (j < n)%nat /\ sp_rows L = (sp_rows op ^ n)%nat /\
  (sp_cols op = sp_rows op -> sp_cols L = (sp_rows op ^ n)%nat).
Proof.
  unfold qubit_operator. case_decide as Hj; [|done]. intros [= <-].
  split; [done|]. simpl. split.
  - by apply pow_split.
  - intros ->. by apply pow_split.
Qed.

Lemma capacitive_term_cols (Id : spmatrix) (item : Qc * Qc * spmatrix) :
  sp_cols (capacitive_term Id item) = sp_cols item.2.
Proof. by destruct item as [[a b] M]. Qed.

Lemma zip3_length {A B C : Type} (a : list A) (b : list B) (c : list C) (n : nat) :
  length a = n -> length b = n -> length c = n -> length (zip3 a b c) = n.
Proof.
  revert b c n. induction a as [|x a IH]; intros [|y b] [|z c] n; simpl; try done; try lia.
  intros <- [= Hb] [= Hc]. f_equal. by apply IH.
Qed.

Lemma zip3_third {A B C : Type} (P : C -> Prop) (a : list A) (b : list B) (c : list C) :
  Forall P c -> Forall (fun it => P it.2) (zip3 a b c).
Proof.
  revert b c. induction a as [|x a IH]; intros [|y b] [|z c] Hc; simpl; try constructor.
  - simpl. by inversion Hc.
  - apply IH. by inversion Hc.
Qed.

Lemma number_operator_square (nmax : nat) :
  sp_cols (number_operator nmax) = sp_rows (number_operator nmax).
Proof. done. Qed.

Lemma map_result_qubit_operator_shapes {X : Type} (op : spmatrix) (n : nat)
    (idx : X -> nat) (l : list X) (r : list spmatrix) :
  sp_cols op = sp_rows op ->
  map_result (fun it => qubit_operator op (idx it) n) l = Ok r ->
  length r = length l /\ Forall (fun M => sp_cols M = (sp_rows op ^ n)%nat) r.
Proof.
  intros Hsq Hr. apply map_result_Forall2 in Hr.
  split; [symmetry; by eapply Forall2_length|].
  induction Hr as [|a M l r Ha _ IH]; constructor; [|done].
  apply qubit_operator_shape in Ha as (_ & _ & Hc). by apply Hc.
Qed.

Lemma init_shapes_ok nqubits Ec EJ g ng nmax self :
  init nqubits Ec EJ g ng nmax = Ok self ->
  shapes_ok ((2 * nmax + 1) ^ nqubits) self.
Proof.
  unfold init.
  destruct (broadcast1 Ec nqubits) as [Ec'|]; simpl; [|done].
  destruct (broadcast1 ng nqubits) as [ng'|]; simpl; [|done].
  destruct (broadcast1 EJ nqubits) as [EJ'|]; simpl; [|done].
  case_decide as Hlen; [|done]. destruct Hlen as (HEc & Hng & HEJ).
  destruct (map_result _ (seq 0 nqubits)) as [Ns|] eqn:HNs; simpl; [|done].
  destruct (map_result _ (zip _ EJ')) as [HJJ'|] eqn:HHJJ; simpl; [|done].
  destruct (broadcast2 g nqubits) as [g'|]; simpl; [|done].
  destruct (nd_add g' (nd_T g')) as [gs|]; simpl; [|done].
  intros [= <-]. unfold shapes_ok. simpl.
  apply (map_result_qubit_operator_shapes _ _ id) in HNs as [HlenN HcolsN];
    [|done].
  apply (map_result_qubit_operator_shapes _ _ fst) in HHJJ as [HlenJ HcolsJ];
    [|done].
  rewrite length_seq in HlenN.
  rewrite length_zip, length_seq, Nat.min_id, HEJ in HlenJ.
  change (sp_rows (number_operator nmax)) with (2 * nmax + 1)%nat in HcolsN.
  change (sp_rows (sp_div _ _)) with (2 * nmax + 1)%nat in HcolsJ.
  repeat split; try done.
  pose proof (py_sum_cols ((2 * nmax + 1) ^ nqubits)
    (capacitive_term (sp_eye ((2 * nmax + 1) ^ nqubits)) <$> zip3 ng' Ec' Ns)) as Hsum.
  assert (length (zip3 ng' Ec' Ns) = nqubits) as Hz
    by (apply zip3_length; congruence).
  assert (length HJJ' = nqubits) as HlenJ' by congruence.
  clear HlenJ.
  specialize (Hsum ltac:(
    rewrite Forall_fmap;
    eapply Forall_impl; [apply (zip3_third _ _ _ _ HcolsN)|];
    intros it Hit; simpl; by rewrite capacitive_term_cols)).
  destruct (py_sum sp_add _) as [|A]; [|done].
  apply fmap_nil_inv in Hsum. rewrite Hsum in Hz. simpl in Hz. subst nqubits.
  rewrite <- Hz in HlenJ'. split; [done|]. by destruct HJJ'.
Qed.

Lemma tune_shapes_ok (D : nat) self EJ g out :
  tune self EJ g = Ok out -> shapes_ok D self -> shapes_ok D out.
Proof.
  unfold tune. intros Hout Hok.
  destruct EJ as [EJ|]; simpl in Hout.
  - destruct (broadcast1 EJ (nqubits self)) as [EJ'|]; simpl in Hout; [|done].
    destruct g as [g|]; simpl in Hout.
    + destruct (broadcast2 g (nqubits self)) as [g'|]; simpl in Hout; [|done].
      destruct (nd_add g' (nd_T g')) as [gs|]; simpl in Hout; [|done].
      by injection Hout as <-.
    + by injection Hout as <-.
  - destruct g as [g|]; simpl in Hout.
    + destruct (broadcast2 g (nqubits self)) as [g'|]; simpl in Hout; [|done].
      destruct (nd_add g' (nd_T g')) as [gs|]; simpl in Hout; [|done].
      by injection Hout as <-.
    + by injection Hout as <-.
Qed.

Lemma instance_shapes_ok self : instance self -> exists D, shapes_ok D self.
Proof.
  induction 1 as [n Ec EJ g ng nmax self Hinit | self EJ g out _ [D IH] Htune].
  - eexists. by eapply init_shapes_ok.
  - exists D. by eapply tune_shapes_ok.
Qed.



(** ** The Hamiltonian and its matrix-free application *)

Lemma coupled_pairs_bound self i j :
  (i, j) ∈ coupled_pairs self -> (j < i)%nat /\ (i < nqubits self)%nat.
Proof.
  unfold coupled_pairs. intros Hin.
  apply list_elem_of_bind in Hin as (i' & Hin & Hi'%elem_of_seq).
  apply list_elem_of_bind in Hin as (j' & Hin & Hj'%elem_of_seq).
  case_decide; [by apply elem_of_nil in Hin|].
  apply list_elem_of_singleton in Hin as [= -> ->]. lia.
Qed.

Lemma N_at_cols (D : nat) self j :
  shapes_ok D self -> (j < nqubits self)%nat -> sp_cols (N_at self j) = D.
Proof.
  intros (Hlen & HN & _) Hj. unfold N_at.
  destruct (lookup_lt_is_Some_2 (N self) j) as [M HM]; [lia|].
  rewrite HM. simpl. by eapply (Forall_lookup_1 _ _ _ _ HN).
Qed.

Lemma tunneling_agrees (D : nat) self (ψ : Mat) :
  shapes_ok D self ->
  sum_agrees D (- (1)) ψ
    (py_sum sp_add
       ((fun item : Qc * spmatrix => let '(EJ, hi) := item in sp_scale (- EJ) hi)
          <$> zip (EJ self) (HJJ self)))
    (py_sum arr_add
       ((fun item : Qc * spmatrix =>
           let '(EJi, hi) := item in arr_scale EJi (sp_matmul hi ψ))
          <$> zip (EJ self) (HJJ self))).
Proof.
  intros (_ & _ & HJ & _). apply sum_agrees_items.
  intros [e hi] Hin. split.
  - simpl. apply elem_of_zip_r in Hin. by eapply (proj1 (Forall_forall _ _) HJ).
  - intros i c. rewrite sp_matmul_scale. unfold arr_scale. ring.
Qed.

Lemma coupling_agrees (D : nat) self (ψ : Mat) :
  shapes_ok D self ->
  sum_agrees D 1 ψ
    (py_sum sp_add
       ((fun ij : nat * nat =>
           let '(i, j) := ij in
           sp_scale (2 * nd_at (g self) i j) (sp_mul (N_at self i) (N_at self j)))
          <$> coupled_pairs self))
    (py_sum arr_add
       ((fun ij : nat * nat =>
           let '(i, j) := ij in
           arr_scale (2 * nd_at (g self) i j)
             (sp_matmul (N_at self i) (sp_matmul (N_at self j) ψ)))
          <$> coupled_pairs self)).
Proof.
  intros Hok. apply sum_agrees_items.
  intros [i j] Hin. apply coupled_pairs_bound in Hin as [Hji Hi]. split.
  - simpl. apply (N_at_cols D); [done|lia].
  - intros r c. rewrite sp_matmul_scale, sp_matmul_mul. unfold arr_scale. ring.
Qed.

(** C1.  For every [Transmons] object (returned by the constructor or by
    [tune], for any number of qubits, energies, offsets, couplings and
    cutoff) and every vector or matrix [x] with as many rows as the
    Hamiltonian has columns, [apply(x)] and [hamiltonian() @ x] are the
    same array; in exact arithmetic they are equal entry by entry.  With
    no qubit at all both calls raise the same exception, because both
    [Hcap] and [hamiltonian()] are then the integer [0]. *)
Theorem apply_eq_hamiltonian_matmul (self : Transmons) (x : Mat) :
  instance self ->
  result_arr_eq (apply self x) (py_matmul (hamiltonian self) x).
Proof.
  intros [D Hok]%instance_shapes_ok.
  pose proof (tunneling_agrees D self x Hok) as HT.
  pose proof (coupling_agrees D self x Hok) as HC.
  unfold apply, hamiltonian.
  destruct Hok as (_ & _ & _ & HH).
  destruct (Hcap self) as [|A0]; simpl.
  - destruct HH as [Hn HJ].
    unfold coupled_pairs. rewrite Hn, HJ, zip_with_nil_r. done.
  - unfold sum_agrees in HT, HC.
    destruct (py_sum sp_add (_ <$> zip _ _)) as [|S1],
             (py_sum arr_add (_ <$> zip _ _)) as [|s1]; try done;
    destruct (py_sum sp_add (_ <$> coupled_pairs _)) as [|S2],
             (py_sum arr_add (_ <$> coupled_pairs _)) as [|s2]; try done;
    simpl; intros i c; unfold arr_add, arr_sub.
    + destruct HC as [Hc2 HC]. rewrite sp_matmul_add by congruence.
      rewrite HC. ring.
    + destruct HT as [Hc1 HT]. rewrite sp_matmul_add by congruence.
      rewrite HT. ring.
    + destruct HT as [Hc1 HT], HC as [Hc2 HC].
      rewrite sp_matmul_add by (simpl; congruence).
      rewrite sp_matmul_add by congruence. rewrite HT, HC. ring.
Qed.

(** Two coupled qubits with cutoff 1 (dimension 9), applied to a basis
    vector. *)
Lemma apply_eq_hamiltonian_matmul_witness :
  exists self,
    init 2 (Scalar 1) (Scalar 1) (GScalar (Qc_of_Z 3)) (Scalar 0) 1 = Ok self /\
    instance self /\
    result_arr_eq
      (apply self (fun i _ => if decide (i = 4%nat) then 1 else 0))
      (py_matmul (hamiltonian self) (fun i _ => if decide (i = 4%nat) then 1 else 0)).
Proof.
  destruct (init 2 (Scalar 1) (Scalar 1) (GScalar (Qc_of_Z 3)) (Scalar 0) 1)
    as [self|e] eqn:Hinit.
  - exists self. split; [reflexivity|].
    assert (instance self) as Hinst by (eapply instance_init; exact Hinit).
    split; [exact Hinst|]. by apply apply_eq_hamiltonian_matmul.
  - exfalso.
    assert (is_ok (init 2 (Scalar 1) (Scalar 1) (GScalar (Qc_of_Z 3)) (Scalar 0) 1))
      as Hok by (hnf; exact I).
    rewrite Hinit in Hok. exact Hok.
Defined.



(** ** The stored coupling *)

Lemma init_g nqubits Ec EJ g ng nmax self :
  init nqubits Ec EJ g ng nmax = Ok self ->
  exists G gs, broadcast2 g nqubits = Ok G /\ nd_add G (nd_T G) = Ok gs /\
               Cqed.g self = nd_div gs 2.
Proof.
  unfold init.
  destruct (broadcast1 Ec nqubits) as [Ec'|]; simpl; [|done].
  destruct (broadcast1 ng nqubits) as [ng'|]; simpl; [|done].
  destruct (broadcast1 EJ nqubits) as [EJ'|]; simpl; [|done].
  case_decide as Hlen; [|done].
  destruct (map_result _ (seq 0 nqubits)) as [Ns|]; simpl; [|done].
  destruct (map_result _ (zip _ EJ')) as [HJJ'|]; simpl; [|done].
  destruct (broadcast2 g nqubits) as [G|]; simpl; [|done].
  destruct (nd_add G (nd_T G)) as [gs|] eqn:Hgs; simpl; [|done].
  intros [= <-]. by exists G, gs.
Qed.






(** ** Broadcasting of scalar parameters *)

Lemma init_parameters nqubits Ec EJ g ng nmax self :
  init nqubits Ec EJ g ng nmax = Ok self ->
  broadcast1 Ec nqubits = Ok (Cqed.Ec self) /\
  broadcast1 EJ nqubits = Ok (Cqed.EJ self) /\
  broadcast1 ng nqubits = Ok (Cqed.ng self) /\
  Cqed.nqubits self = nqubits /\ Cqed.nmax self = nmax.
Proof.
  unfold init.
  destruct (broadcast1 Ec nqubits) as [Ec'|]; simpl; [|done].
  destruct (broadcast1 ng nqubits) as [ng'|]; simpl; [|done].
  destruct (broadcast1 EJ nqubits) as [EJ'|]; simpl; [|done].
  case_decide as Hlen; [|done].
  destruct (map_result _ (seq 0 nqubits)) as [Ns|]; simpl; [|done].
  destruct (map_result _ (zip _ EJ')) as [HJJ'|]; simpl; [|done].
  destruct (broadcast2 g nqubits) as [G|]; simpl; [|done].
  destruct (nd_add G (nd_T G)) as [gs|] eqn:Hgs; simpl; [|done].
  by intros [= <-].
Qed.

Lemma broadcast2_scalar (v : Qc) (n : nat) :
  exists G, broadcast2 (GScalar v) n = Ok G /\
            nd_rows G = n /\ nd_cols G = n /\ forall i j, nd_at G i j = v.
Proof.
  unfold broadcast2, nd_mul, nd_zip, bshape. simpl.
  case_decide as Hn; simpl.
  - subst n. eexists. split; [done|]. simpl. repeat split. intros. ring.
  - eexists. split; [done|]. simpl. repeat split. intros. ring.
Qed.

(** C10.  A scalar [Ec], [EJ] or [ng] given to the constructor is stored
    as an array of length [nqubits] that holds the scalar for every
    qubit.  A scalar coupling [g] is first broadcast to an [nqubits] by
    [nqubits] matrix with [g] at every entry, then symmetrized; the
    stored coupling holds [g] at every entry. *)
Theorem scalar_parameters_broadcast nqubits Ec EJ g ng nmax self :
  init nqubits Ec EJ g ng nmax = Ok self ->
  (forall v, Ec = Scalar v -> Cqed.Ec self = replicate nqubits v) /\
  (forall v, EJ = Scalar v -> Cqed.EJ self = replicate nqubits v) /\
  (forall v, ng = Scalar v -> Cqed.ng self = replicate nqubits v) /\
  (forall v, g = GScalar v ->
     exists G gs,
       broadcast2 g nqubits = Ok G /\
       nd_rows G = nqubits /\ nd_cols G = nqubits /\
       (forall i j, nd_at G i j = v) /\
       nd_add G (nd_T G) = Ok gs /\ Cqed.g self = nd_div gs 2 /\
       nd_rows (Cqed.g self) = nqubits /\ nd_cols (Cqed.g self) = nqubits /\
       forall i j, nd_at (Cqed.g self) i j = v).
Proof.
  intros Hinit.
  pose proof (init_parameters _ _ _ _ _ _ _ Hinit) as (HEc & HEJ & Hng & _ & _).
  repeat split.
  - intros v ->. simpl in HEc. congruence.
  - intros v ->. simpl in HEJ. congruence.
  - intros v ->. simpl in Hng. congruence.
  - intros v ->. apply init_g in Hinit as (G & gs & HG & Hgs & Hg).
    destruct (broadcast2_scalar v nqubits) as (G' & HG' & Hr & Hc & Hat).
    assert (G' = G) as -> by congruence.
    exists G, gs. repeat split; try done.
    + rewrite Hg. simpl.
      apply nd_zip_rows_cols in Hgs as (Hrows & _ & _). simpl in Hrows.
      rewrite Hr, Hc in Hrows. unfold bshape in Hrows.
      rewrite decide_True in Hrows by done. congruence.
    + rewrite Hg. simpl.
      apply nd_zip_rows_cols in Hgs as (_ & Hcols & _). simpl in Hcols.
      rewrite Hr, Hc in Hcols. unfold bshape in Hcols.
      rewrite decide_True in Hcols by done. congruence.
    + intros i j. rewrite Hg. simpl.
      apply nd_zip_rows_cols in Hgs as (_ & _ & ->). simpl.
      rewrite !Hat. field. done.
Qed.

(** Three qubits, every parameter a scalar. *)
Lemma scalar_parameters_broadcast_witness :
  match init 3 (Scalar (Qc_of_Z 5)) (Scalar (Qc_of_Z 7)) (GScalar (Qc_of_Z 2))
             (Scalar (Qc_of_Z 3)) 1 with
  | Ok self =>
      Ec self = replicate 3 (Qc_of_Z 5) /\ EJ self = replicate 3 (Qc_of_Z 7) /\
      ng self = replicate 3 (Qc_of_Z 3) /\
      forall i j, nd_at (Cqed.g self) i j = Qc_of_Z 2
  | Raise _ => False
  end.
Proof.
  assert (is_ok (init 3 (Scalar (Qc_of_Z 5)) (Scalar (Qc_of_Z 7))
                   (GScalar (Qc_of_Z 2)) (Scalar (Qc_of_Z 3)) 1)) as Hok
    by (hnf; exact I).
  destruct (init 3 _ _ _ _ 1) as [self|] eqn:Hinit; [|done].
  destruct (scalar_parameters_broadcast _ _ _ _ _ _ _ Hinit)
    as (HEc & HEJ & Hng & Hg).
  split; [by apply HEc|]. split; [by apply HEJ|]. split; [by apply Hng|].
  destruct (Hg _ eq_refl) as (G & gs & _ & _ & _ & _ & _ & _ & _ & _ & Hat).
  exact Hat.
Defined.

(** ** The lifted operator *)

(** C5.  For a local operator [op] of dimension [d] (a [d] by [d]
    matrix), a number of subsystems [N] and an index [j < N],
    [qubit_operator(op, j, N)] returns the Kronecker product
    [I(d^j) ⊗ op ⊗ I(d^(N-j-1))], a matrix of dimension [d^N]. *)
Theorem qubit_operator_is_kron (op : spmatrix) (j N : nat) :
  sp_cols op = sp_rows op -> (j < N)%nat ->
  exists L, qubit_operator op j N = Ok L /\
            sp_equiv L (lifted_operator op j N) /\
            sp_rows L = (sp_rows op ^ N)%nat /\
            sp_cols L = (sp_rows op ^ N)%nat.
Proof.
  intros Hsq Hj. unfold qubit_operator. rewrite decide_True by done.
  eexists. split; [done|]. split; [apply kron_right_nested|].
  simpl. rewrite Hsq. split; by apply pow_split.
Qed.

(** The number operator of cutoff 1 (dimension 3) on the middle one of
    three subsystems. *)
Lemma qubit_operator_is_kron_witness :
  sp_cols (number_operator 1) = sp_rows (number_operator 1) /\ (1 < 3)%nat /\
  exists L, qubit_operator (number_operator 1) 1 3 = Ok L /\
            sp_equiv L (lifted_operator (number_operator 1) 1 3) /\
            sp_rows L = 27%nat /\ sp_cols L = 27%nat.
Proof.
  split; [reflexivity|]. split; [lia|].
  apply (qubit_operator_is_kron (number_operator 1) 1 3); [reflexivity|lia].
Defined.

End CqedFacts.

(* ===================================================================== *)
(** * Properties of seeq/models/lattice.py *)
(* ===================================================================== *)

Module LatticeFacts.
Import Py Linalg Lattice.

(** ** Sorted lists *)

Lemma StronglySorted_lookup {A : Type} (R : relation A) (l : list A) :
  (forall i j x y, (i < j)%nat -> l !! i = Some x -> l !! j = Some y -> R x y) ->
  StronglySorted R l.
Proof.
  induction l as [|a l IH]; intros Hl; constructor.
  - apply IH. intros i j x y Hij Hi Hj. apply (Hl (S i) (S j)); [lia|done..].
  - apply Forall_lookup. intros j y Hj. apply (Hl O (S j)); [lia|done..].
Qed.

Lemma seqZ_sorted (m n : Z) : StronglySorted Z.lt (seqZ m n).
Proof.
  apply StronglySorted_lookup. intros i j x y Hij Hi Hj.
  apply lookup_seqZ in Hi as [-> _]. apply lookup_seqZ in Hj as [-> _]. lia.
Qed.

Lemma StronglySorted_bind {A B : Type} (RA : relation A) (RB : relation B)
    (f : A -> list B) (l : list A) :
  StronglySorted RA l ->
  (forall a, a ∈ l -> StronglySorted RB (f a)) ->
  (forall a a' b b', RA a a' -> b ∈ f a -> b' ∈ f a' -> RB b b') ->
  StronglySorted RB (l ≫= f).
Proof.
  intros Hl Hin Hcross. revert Hin.
  induction Hl as [|a l Hl IH Ha]; intros Hin; [constructor|].
  change ((a :: l) ≫= f) with (f a ++ (l ≫= f)).
  apply StronglySorted_app_2.
  - intros b b' Hb (a' & Hb' & Ha')%list_elem_of_bind.
    apply (Hcross a a'); [|done..].
    rewrite Forall_forall in Ha. by apply Ha.
  - apply Hin. by left.
  - apply IH. intros. apply Hin. by right.
Qed.

Lemma StronglySorted_NoDup {A : Type} (R : relation A) `{!Irreflexive R}
    (l : list A) :
  StronglySorted R l -> NoDup l.
Proof.
  induction 1 as [|a l Hl IH Ha]; constructor; [|done].
  intros Hin. rewrite Forall_forall in Ha.
  by apply (irreflexivity R a), Ha.
Qed.

Global Instance lex_lt_irreflexive : Irreflexive lex_lt.
Proof. intros [[x y] z] H. unfold lex_lt in H. simpl in H. lia. Qed.

(** ** The enumeration of the sites *)

Lemma elem_of_sites sizes r0 condition (r : coordinate) :
  r ∈ sites sizes r0 condition <->
  in_box sizes r0 r /\ condition r.1.1 r.1.2 r.2 = true.
Proof.
  destruct r0 as [[X0 Y0] Z0], r as [[X Y] Z]. unfold sites, in_box. simpl.
  rewrite list_elem_of_bind. setoid_rewrite list_elem_of_bind.
  setoid_rewrite list_elem_of_bind. setoid_rewrite elem_of_seqZ.
  split.
  - intros (X' & (Y' & (Z' & Hin & HZ) & HY) & HX).
    destruct (condition X' Y' Z') eqn:Hc; [|by apply elem_of_nil in Hin].
    apply list_elem_of_singleton in Hin as [= -> -> ->]. done.
  - intros ((HX & HY & HZ) & Hc). exists X. split; [|done].
    exists Y. split; [|done]. exists Z. split; [|done].
    rewrite Hc. by apply list_elem_of_singleton.
Qed.

Lemma sites_sorted sizes r0 condition :
  StronglySorted lex_lt (sites sizes r0 condition).
Proof.
  destruct r0 as [[X0 Y0] Z0]. unfold sites.
  apply (StronglySorted_bind Z.lt); [apply seqZ_sorted| |].
  - intros X _. apply (StronglySorted_bind Z.lt); [apply seqZ_sorted| |].
    + intros Y _. apply (StronglySorted_bind Z.lt); [apply seqZ_sorted| |].
      * intros Z _. destruct (condition X Y Z); repeat constructor.
      * intros Z Z' b b' HZ Hb Hb'.
        destruct (condition X Y Z); [|by apply elem_of_nil in Hb].
        destruct (condition X Y Z'); [|by apply elem_of_nil in Hb'].
        apply list_elem_of_singleton in Hb as ->.
        apply list_elem_of_singleton in Hb' as ->.
        unfold lex_lt. simpl. lia.
    + intros Y Y' b b' HY (Z & Hb & _)%list_elem_of_bind
             (Z' & Hb' & _)%list_elem_of_bind.
      destruct (condition X Y Z); [|by apply elem_of_nil in Hb].
      destruct (condition X Y' Z'); [|by apply elem_of_nil in Hb'].
      apply list_elem_of_singleton in Hb as ->.
      apply list_elem_of_singleton in Hb' as ->.
      unfold lex_lt. simpl. lia.
  - intros X X' b b' HX (Y & (Z & Hb & _)%list_elem_of_bind & _)%list_elem_of_bind
           (Y' & (Z' & Hb' & _)%list_elem_of_bind & _)%list_elem_of_bind.
    destruct (condition X Y Z); [|by apply elem_of_nil in Hb].
    destruct (condition X' Y' Z'); [|by apply elem_of_nil in Hb'].
    apply list_elem_of_singleton in Hb as ->.
    apply list_elem_of_singleton in Hb' as ->.
    unfold lex_lt. simpl. lia.
Qed.

Lemma sites_NoDup sizes r0 condition : NoDup (sites sizes r0 condition).
Proof. apply (StronglySorted_NoDup lex_lt), sites_sorted. Qed.

(** ** The index of a site *)

Lemma enumerate_snoc {A : Type} (l : list A) (a : A) :
  enumerate (l ++ [a]) = enumerate l ++ [(length l, a)].
Proof.
  unfold enumerate. rewrite length_app. simpl. rewrite seq_app. simpl.
  rewrite zip_with_app by (by rewrite length_seq). done.
Qed.

Lemma index_map_snoc (l : list coordinate) (a : coordinate) :
  index_map (l ++ [a]) = <[a := length l]> (index_map l).
Proof. unfold index_map. by rewrite enumerate_snoc, fold_left_app. Qed.

Lemma index_map_None (l : list coordinate) (r : coordinate) :
  index_map l !! r = None <-> r ∉ l.
Proof.
  induction l as [|a l IH] using rev_ind.
  - split; [intros _; apply not_elem_of_nil | done].
  - rewrite index_map_snoc, lookup_insert_None, IH, not_elem_of_app.
    rewrite list_elem_of_singleton. split; intros [? ?]; split; done || congruence.
Qed.

Lemma index_map_Some (l : list coordinate) (r : coordinate) (i : nat) :
  NoDup l -> index_map l !! r = Some i <-> l !! i = Some r.
Proof.
  induction l as [|a l IH] using rev_ind; intros Hnd.
  - unfold index_map. simpl. by rewrite lookup_empty.
  - apply NoDup_app in Hnd as (Hnd & Hal & _). rewrite index_map_snoc.
    destruct (decide (a = r)) as [->|Hne].
    + rewrite lookup_insert_eq. split.
      * intros [= <-]. by rewrite list_lookup_middle.
      * intros Hi. f_equal. destruct (decide (i < length l)%nat) as [Hlt|Hge].
        -- rewrite lookup_app_l in Hi by done.
           apply list_elem_of_lookup_2 in Hi. apply Hal in Hi.
           exfalso. apply Hi. by left.
        -- apply lookup_lt_Some in Hi. rewrite length_app in Hi. simpl in Hi. lia.
    + rewrite lookup_insert_ne by done. rewrite IH by done. split.
      * intros Hi. by apply lookup_app_l_Some.
      * intros Hi. destruct (decide (i < length l)%nat) as [Hlt|Hge].
        -- by rewrite lookup_app_l in Hi.
        -- rewrite lookup_app_r in Hi by lia.
           apply list_lookup_singleton_Some in Hi as [_ ?]. done.
Qed.

Lemma index_map_size (l : list coordinate) :
  NoDup l -> base.size (index_map l) = length l.
Proof.
  induction l as [|a l IH] using rev_ind; intros Hnd.
  - unfold index_map. simpl. apply map_size_empty.
  - apply NoDup_app in Hnd as (Hnd & Hal & _). rewrite index_map_snoc.
    rewrite map_size_insert_None.
    + rewrite IH by done. rewrite length_app. simpl. lia.
    + apply index_map_None. intros Hin. apply (Hal _ Hin). by left.
Qed.

(** C4.  The site enumeration of [__init__] gives a dense, 0-based
    bijection between the admitted coordinates and the indices
    [0 .. N-1]: [coord] holds exactly the positions of the box that the
    predicate admits, in strictly increasing lexicographic order of
    [(X, Y, Z)] ([X] varies slowest), and [ndx_map] sends a coordinate to
    [i] exactly when it is the [i]-th element of [coord].  The
    enumeration is a function of [sizes], [r0] and the predicate, so
    running it again gives the same list. *)
Theorem site_enumeration sizes r0 condition :
  let coord := sites sizes r0 condition in
  let ndx_map := index_map coord in
  (forall r, r ∈ coord <-> in_box sizes r0 r /\ condition r.1.1 r.1.2 r.2 = true) /\
  StronglySorted lex_lt coord /\
  base.size ndx_map = length coord /\
  (forall r i, ndx_map !! r = Some i <-> coord !! i = Some r) /\
  (forall r, r ∈ coord -> exists i, (i < length coord)%nat /\ ndx_map !! r = Some i) /\
  (forall i, (i < length coord)%nat -> exists r, r ∈ coord /\ ndx_map !! r = Some i).
Proof.
  intros coord ndx_map.
  pose proof (sites_NoDup sizes r0 condition) as Hnd.
  split; [apply elem_of_sites|]. split; [apply sites_sorted|].
  split; [by apply index_map_size|].
  split; [intros r i; by apply index_map_Some|]. split.
  - intros r [i Hi]%list_elem_of_lookup_1. exists i. split.
    + by eapply lookup_lt_Some.
    + by apply index_map_Some.
  - intros i [r Hr]%lookup_lt_is_Some_2. exists r. split.
    + by eapply list_elem_of_lookup_2.
    + by apply index_map_Some.
Qed.

(** ** What the constructor stores *)

Lemma init_Ok sizes hopping r0 condition L :
  init sizes hopping r0 condition = Ok L ->
  let cond := default (fun _ _ _ => true) condition in
  coord L = sites sizes r0 cond /\
  ndx_map L = index_map (coord L) /\
  size L = length (coord L) /\
  _H L = csr_matrix (hop_triples hopping (coord L) (ndx_map L))
           (length (coord L)) (length (coord L)).
Proof.
  unfold init. cbv zeta. intros HL.
  set (cond := default (fun _ _ _ => true) condition) in *.
  pose proof (index_map_size _ (sites_NoDup sizes r0 cond)) as Hsize.
  destruct (hop_triples hopping _ _) as [|t hops] eqn:Hhops; [done|].
  destruct (sites sizes r0 cond) as [|[[x0 y0] z0] rest] eqn:Hsites; [done|].
  injection HL as <-. simpl. rewrite Hsize, Hhops. done.
Qed.

(** C7.  On a lattice returned by the constructor, [coupling_at(r, g)]
    raises [InvalidPosition] exactly when [r] is not one of the admitted
    coordinates.  When [r] is admitted the call returns a vector of
    length [N] that holds [g] at the index of [r] and zero at every other
    index. *)
Theorem coupling_at_spec sizes hopping r0 condition L (r : coordinate) (g : Qc) :
  init sizes hopping r0 condition = Ok L ->
  (r ∈ coord L <->
   in_box sizes r0 r /\
   default (fun _ _ _ => true) condition r.1.1 r.1.2 r.2 = true) /\
  (coupling_at L r g = Raise InvalidPosition <-> r ∉ coord L) /\
  (r ∈ coord L ->
     exists ndx gr,
       coord L !! ndx = Some r /\ vertex_index L r = Some ndx /\
       coupling_at L r g = Ok gr /\
       length gr = length (coord L) /\
       gr !! ndx = Some g /\
       forall k, (k < length gr)%nat -> k ≠ ndx -> gr !! k = Some 0).
Proof.
  intros HL. pose proof (init_Ok _ _ _ _ _ HL) as (Hcoord & Hmap & Hsize & _).
  assert (NoDup (coord L)) as Hnd by (rewrite Hcoord; apply sites_NoDup).
  split; [rewrite Hcoord; apply elem_of_sites|].
  unfold coupling_at, vertex_index. rewrite Hmap, Hsize. split.
  - destruct (index_map (coord L) !! r) as [ndx|] eqn:Hr.
    + split.
      * case_decide; done.
      * intros Hnot. apply index_map_None in Hnot. congruence.
    + split; [|done]. intros _. by apply index_map_None.
  - intros [ndx Hndx]%list_elem_of_lookup_1. exists ndx.
    pose proof (lookup_lt_Some _ _ _ Hndx) as Hlt.
    apply index_map_Some in Hndx as Hm; [|done]. rewrite Hm.
    rewrite length_replicate, decide_True by done.
    eexists. split; [done|]. split; [done|]. split; [done|].
    split; [by rewrite length_insert, length_replicate|]. split.
    + apply list_lookup_insert_eq. by rewrite length_replicate.
    + intros k Hk Hne. rewrite length_insert, length_replicate in Hk.
      rewrite list_lookup_insert_ne by done. by apply lookup_replicate_2.
Qed.

(** A chain of three sites with nearest-neighbour hopping. *)
Lemma coupling_at_spec_witness :
  let chain := fun X Y Z : Z =>
    [(Qc_of_Z 5, (X, Y, Z)); (1, (X + 1, Y, Z)%Z); (1, (X - 1, Y, Z)%Z)] in
  match init (3, 1, 1)%Z chain (0, 0, 0)%Z None with
  | Ok L =>
      (coupling_at L (7, 0, 0)%Z 1 = Raise InvalidPosition
       <-> (7, 0, 0)%Z ∉ coord L) /\
      ((1, 0, 0)%Z ∈ coord L ->
       exists ndx gr,
         coord L !! ndx = Some (1, 0, 0)%Z /\
         vertex_index L (1, 0, 0)%Z = Some ndx /\
         coupling_at L (1, 0, 0)%Z 1 = Ok gr /\
         length gr = length (coord L) /\
         gr !! ndx = Some 1 /\
         forall k, (k < length gr)%nat -> k ≠ ndx -> gr !! k = Some 0)
  | Raise _ => False
  end.
Proof.
  intros chain.
  assert (is_ok (init (3, 1, 1)%Z chain (0, 0, 0)%Z None)) as Hok
    by (hnf; exact I).
  destruct (init (3, 1, 1)%Z chain (0, 0, 0)%Z None) as [L|] eqn:HL; [|done].
  split.
  - apply (proj2 (coupling_at_spec _ _ _ _ L (7, 0, 0)%Z 1 HL)).
  - apply (proj2 (coupling_at_spec _ _ _ _ L (1, 0, 0)%Z 1 HL)).
Defined.

(** ** The assembled matrix *)

Lemma qsum_app (l1 l2 : list Qc) : qsum (l1 ++ l2) = qsum l1 + qsum l2.
Proof. induction l1 as [|a l1 IH]; simpl; [ring|]. rewrite IH. ring. Qed.

Lemma hop_triples_sites hopping (coord : list coordinate) ndx_map :
  hop_triples hopping coord ndx_map
  = enumerate coord ≫= site_triples hopping ndx_map.
Proof.
  unfold hop_triples. apply list_bind_ext; [|done].
  intros [i [[X Y] Z]]. unfold site_triples. simpl.
  apply list_bind_ext; [|done]. by intros [J dest].
Qed.

(** The data that one site contributes to the entry [(i, k)]. *)
Lemma site_triples_entry hopping ndx_map (i' : nat) (c : coordinate) (i k : nat) :
  qsum ((fun t : Qc * nat * nat => t.1.1)
          <$> filter (fun t : Qc * nat * nat => t.1.2 = i /\ t.2 = k)
                (site_triples hopping ndx_map (i', c)))
  = if decide (i' = i)
    then qsum (fst <$> filter (fun hop : Qc * coordinate => ndx_map !! hop.2 = Some k)
                         (hopping_at hopping c))
    else 0.
Proof.
  unfold site_triples. csimpl.
  induction (hopping_at hopping c) as [|[J dest] hops IH].
  - by case_decide.
  - change (((J, dest) :: hops) ≫= ?f) with (f (J, dest) ++ (hops ≫= f)).
    rewrite filter_app, fmap_app, qsum_app, IH. csimpl.
    rewrite filter_cons. csimpl.
    destruct (ndx_map !! dest) as [k'|] eqn:Hdest.
    + rewrite filter_cons, filter_nil. csimpl.
      destruct (decide (i' = i)) as [->|Hne].
      * destruct (decide (k' = k)) as [->|Hk].
        -- rewrite !decide_True by done. csimpl. ring.
        -- rewrite decide_False by (intros [_ ?]; done).
           rewrite decide_False by congruence. csimpl. ring.
      * rewrite decide_False by (intros [? _]; done). csimpl. ring.
    + rewrite filter_nil, (decide_False (P := None = Some k)) by done. csimpl.
      case_decide; ring.
Qed.

(** The entry [(i, k)] of the matrix assembled from the sites [l],
    numbered from [k0]. *)
Lemma csr_entry_from hopping ndx_map (l : list coordinate) (k0 i k : nat) :
  qsum ((fun t : Qc * nat * nat => t.1.1)
          <$> filter (fun t : Qc * nat * nat => t.1.2 = i /\ t.2 = k)
                (zip (seq k0 (length l)) l ≫= site_triples hopping ndx_map))
  = match (if decide (k0 <= i)%nat then l !! (i - k0)%nat else None) with
    | Some ci =>
        qsum (fst <$> filter (fun hop : Qc * coordinate => ndx_map !! hop.2 = Some k)
                        (hopping_at hopping ci))
    | None => 0
    end.
Proof.
  revert k0. induction l as [|c l IH]; intros k0.
  - simpl. by case_decide.
  - simpl length. simpl seq. simpl zip.
    change (((k0, c) :: ?r) ≫= ?f) with (f (k0, c) ++ (r ≫= f)).
    rewrite filter_app, fmap_app, qsum_app, site_triples_entry, IH.
    destruct (decide (k0 = i)) as [->|Hne].
    + rewrite (decide_False (P := (S i <= i)%nat)) by lia.
      rewrite decide_True by lia. rewrite Nat.sub_diag. csimpl. ring.
    + destruct (decide (S k0 <= i)%nat) as [Hle|Hgt].
      * rewrite decide_True by lia.
        replace (i - k0)%nat with (S (i - S k0)) by lia. simpl.
        destruct (l !! (i - S k0)%nat); ring.
      * rewrite (decide_False (P := (k0 <= i)%nat)) by lia. ring.
Qed.




(** ** When the constructor fails *)

Lemma sites_none sizes r0 :
  sites sizes r0 (fun _ _ _ => false) = [].
Proof.
  apply elem_of_nil_inv. intros r [_ Hr]%elem_of_sites. done.
Qed.

(** The constructor returns a lattice exactly when at least one pair of
    the hopping rule lands on an admitted site. *)
Lemma init_ok_iff sizes hopping r0 condition :
  is_ok (init sizes hopping r0 condition) <->
  let coord := sites sizes r0 (default (fun _ _ _ => true) condition) in
  hop_triples hopping coord (index_map coord) ≠ [].
Proof.
  unfold init. cbv zeta.
  set (coord := sites sizes r0 (default (fun _ _ _ => true) condition)).
  destruct (hop_triples hopping coord (index_map coord)) as [|t hops] eqn:Hh.
  - simpl. split; done.
  - destruct coord as [|[[x0 y0] z0] rest].
    + by rewrite hop_triples_sites in Hh.
    + simpl. split; done.
Qed.

(** C8 (what the code does).  With a predicate that admits no
    coordinate the list of hopping triples is empty, [np.array] makes a
    one-dimensional array of it, and [hops[:,0]] raises [IndexError]:
    no lattice with [N = 0] is returned. *)
Theorem init_empty_lattice_raises sizes hopping r0 :
  init sizes hopping r0 (Some (fun _ _ _ => false)) = Raise IndexError.
Proof.
  unfold init. simpl. rewrite sites_none. done.
Qed.

End LatticeFacts.

(* ===================================================================== *)
(** * Properties of tune in the store *)
(* ===================================================================== *)

Module CqedHeapFacts.
Import Py Linalg CqedHeap.

(** ** Views *)




(** ** The store only grows below a given length *)





(** ** One assignment of [tune] *)





(** ** [tune] in the store *)




(** ** Later uses of the copy *)








End CqedHeapFacts.

(* ===================================================================== *)
(** * Properties of the named lattices *)
(* ===================================================================== *)

Module LatticesFacts.
Import Py Linalg Lattice LatticeFacts Lattices.

(** ** Entries of the matrix of a lattice *)

Lemma init_entry sizes hopping r0 condition L (i k : nat) (ci ck : coordinate) :
  init sizes hopping r0 condition = Ok L ->
  coord L !! i = Some ci -> coord L !! k = Some ck ->
  sp_at (_H L) i k = weight hopping ci ck.
Proof.
  intros HL Hi Hk.
  pose proof (init_Ok _ _ _ _ _ HL) as (Hcoord & Hmap & Hsize & HH).
  assert (NoDup (coord L)) as Hnd by (rewrite Hcoord; apply sites_NoDup).
  rewrite HH. simpl. rewrite hop_triples_sites. unfold enumerate.
  rewrite (csr_entry_from hopping (ndx_map L) (coord L) 0 i k).
  rewrite decide_True by lia. rewrite Nat.sub_0_r, Hi. unfold weight.
  f_equal. f_equal. apply list_filter_iff. intros [J dest]. simpl.
  rewrite Hmap, index_map_Some by done. split; congruence.
Qed.

Lemma init_shape sizes hopping r0 condition L :
  init sizes hopping r0 condition = Ok L ->
  sp_rows (_H L) = length (coord L) /\ sp_cols (_H L) = length (coord L) /\
  size L = length (coord L).
Proof.
  intros HL. pose proof (init_Ok _ _ _ _ _ HL) as (_ & _ & Hsize & HH).
  by rewrite HH.
Qed.

(** A rule whose weights are the same in both directions between any two
    sites gives a symmetric matrix. *)
Lemma reciprocal_symmetric sizes hopping r0 condition L :
  init sizes hopping r0 condition = Ok L ->
  (forall a b, weight hopping a b = weight hopping b a) ->
  sp_symmetric (_H L).
Proof.
  intros HL Hrec i k Hi Hk.
  destruct (init_shape _ _ _ _ _ HL) as (Hr & Hc & _).
  rewrite Hr in Hi. rewrite Hc in Hk.
  destruct (lookup_lt_is_Some_2 _ _ Hi) as [ci Hci].
  destruct (lookup_lt_is_Some_2 _ _ Hk) as [ck Hck].
  rewrite (init_entry _ _ _ _ _ i k ci ck HL Hci Hck).
  rewrite (init_entry _ _ _ _ _ k i ck ci HL Hck Hci).
  apply Hrec.
Qed.

(** ** Rules given by a stencil *)

Lemma qsum_perm (l1 l2 : list Qc) : l1 ≡ₚ l2 -> qsum l1 = qsum l2.
Proof.
  induction 1 as [|x l1 l2 _ IH|x y l|l1 l2 l3 _ IH1 _ IH2]; simpl.
  - done.
  - by rewrite IH.
  - ring.
  - by rewrite IH1.
Qed.

Lemma shift_reverse (a b d : coordinate) :
  shift b d = a <-> shift a (- d.1.1, - d.1.2, - d.2)%Z = b.
Proof.
  destruct a as [[ax ay] az], b as [[bx by'] bz], d as [[dx dy] dz].
  unfold shift. simpl. split; intros [= <- <- <-]; repeat f_equal; lia.
Qed.

Lemma weight_stencil (stencil : list (Qc * coordinate)) (a b : coordinate) :
  weight (stencil_rule stencil) a b
  = qsum (fst <$> filter (fun wd : Qc * coordinate => shift a wd.2 = b) stencil).
Proof.
  unfold weight, hopping_at, stencil_rule. destruct a as [[X Y] Z].
  induction stencil as [|[w d] st IH]; [done|].
  csimpl. rewrite !filter_cons. simpl.
  case_decide; csimpl; by rewrite IH.
Qed.

Lemma weight_reversed (stencil : list (Qc * coordinate)) (a b : coordinate) :
  weight (stencil_rule (reversed stencil)) a b
  = weight (stencil_rule stencil) b a.
Proof.
  rewrite !weight_stencil. unfold reversed.
  induction stencil as [|[w d] st IH]; [done|].
  csimpl. rewrite !filter_cons. simpl.
  pose proof (shift_reverse a b d) as Hiff.
  destruct (decide (shift b d = a)) as [Hd|Hd].
  - rewrite decide_True by (by apply Hiff). csimpl. by rewrite IH.
  - rewrite decide_False by (intros ?; by apply Hd, Hiff). done.
Qed.

(** A stencil that contains, with every displacement, the opposite one
    with the same weight gives the same weight in both directions. *)
Lemma stencil_reciprocal (stencil : list (Qc * coordinate)) (a b : coordinate) :
  reversed stencil ≡ₚ stencil ->
  weight (stencil_rule stencil) a b = weight (stencil_rule stencil) b a.
Proof.
  intros Hperm. rewrite <- weight_reversed, !weight_stencil.
  apply qsum_perm. by rewrite Hperm.
Qed.


(** ** The sites of a box without boundary predicate *)

Lemma bind_const_length {A B : Type} (f : A -> list B) (l : list A) (m : nat) :
  (forall a, length (f a) = m) -> length (l ≫= f) = (length l * m)%nat.
Proof.
  intros Hm. induction l as [|a l IH]; [done|].
  change ((a :: l) ≫= f) with (f a ++ (l ≫= f)).
  rewrite length_app, Hm, IH. simpl. lia.
Qed.

Lemma bind_const_lookup {A B : Type} (f : A -> list B) (l : list A) (m n : nat) :
  (forall a, length (f a) = m) -> (0 < m)%nat ->
  (l ≫= f) !! n = (l !! (n / m)%nat) ≫= (fun a => f a !! (n mod m)%nat).
Proof.
  intros Hm Hpos. revert n. induction l as [|a l IH]; intros n; [done|].
  change ((a :: l) ≫= f) with (f a ++ (l ≫= f)).
  destruct (decide (n < m)%nat) as [Hlt|Hge].
  - rewrite lookup_app_l by (by rewrite Hm).
    rewrite Nat.div_small, Nat.mod_small by done. done.
  - rewrite lookup_app_r by (rewrite Hm; lia). rewrite Hm, IH.
    assert (n / m = S ((n - m) / m))%nat as ->.
    { rewrite <- Nat.add_1_r, <- Nat.div_add by lia. f_equal. lia. }
    assert (n mod m = (n - m) mod m)%nat as ->.
    { rewrite <- (Nat.Div0.mod_add (n - m) 1 m). f_equal. lia. }
    done.
Qed.

Lemma lookup_seqZ_nat (m : Z) (len i : nat) :
  seqZ m (Z.of_nat len) !! i
  = if decide (i < len)%nat then Some (m + Z.of_nat i)%Z else None.
Proof.
  case_decide.
  - apply lookup_seqZ_lt. lia.
  - apply lookup_seqZ_ge. lia.
Qed.

Lemma digits_mid_lattice (n p r : nat) : ((n mod (r * p)) / r = (n / r) mod p)%nat.
Proof. rewrite (Nat.mul_comm r p). apply LinalgFacts.digits_mid. Qed.

Lemma digits_low_lattice (n p r : nat) : ((n mod (r * p)) mod r = n mod r)%nat.
Proof. rewrite (Nat.mul_comm r p). apply LinalgFacts.digits_low. Qed.

(** Without a predicate the sites of a box are numbered row by row, the
    last coordinate running fastest. *)
Lemma sites_full (sx sy sz : nat) (r0 : coordinate) :
  let coord := sites (Z.of_nat sx, Z.of_nat sy, Z.of_nat sz) r0
                 (fun _ _ _ => true) in
  length coord = (sx * sy * sz)%nat /\
  forall n, (n < sx * sy * sz)%nat ->
    coord !! n = Some (r0.1.1 + Z.of_nat (n / (sy * sz)),
                       r0.1.2 + Z.of_nat ((n / sz) mod sy),
                       r0.2 + Z.of_nat (n mod sz))%Z.
Proof.
  destruct r0 as [[X0 Y0] Z0]. unfold sites. simpl.
  assert (forall X Y, length (seqZ Z0 (Z.of_nat sz)
            ≫= (fun Z => [(X, Y, Z)] : list coordinate)) = sz) as Hz.
  { intros. rewrite (bind_const_length _ _ 1) by done.
    rewrite length_seqZ. lia. }
  assert (forall X, length (seqZ Y0 (Z.of_nat sy)
            ≫= (fun Y => seqZ Z0 (Z.of_nat sz)
            ≫= (fun Z => [(X, Y, Z)] : list coordinate))) = (sy * sz)%nat) as Hy.
  { intros. rewrite (bind_const_length _ _ sz) by (intros; apply Hz).
    rewrite length_seqZ. lia. }
  split.
  - rewrite (bind_const_length _ _ (sy * sz)) by (intros; apply Hy).
    rewrite length_seqZ. lia.
  - intros n Hn.
    assert (0 < sz)%nat by (destruct sz; lia).
    assert (0 < sy)%nat by (destruct sy; lia).
    rewrite (bind_const_lookup _ _ (sy * sz)) by (try (intros; apply Hy); lia).
    rewrite lookup_seqZ_nat, decide_True.
    2:{ apply Nat.Div0.div_lt_upper_bound. lia. }
    simpl.
    rewrite (bind_const_lookup _ _ sz) by (try (intros; apply Hz); lia).
    rewrite lookup_seqZ_nat, decide_True.
    2:{ apply Nat.Div0.div_lt_upper_bound. rewrite Nat.mul_comm.
        apply Nat.mod_upper_bound. lia. }
    simpl.
    rewrite (bind_const_lookup _ _ 1) by (try done; lia).
    rewrite Nat.div_1_r, lookup_seqZ_nat, decide_True.
    2:{ apply Nat.mod_upper_bound. lia. }
    simpl. rewrite (Nat.mul_comm sy sz), digits_mid_lattice, digits_low_lattice.
    done.
Qed.


Lemma sites_to_nat (sizes : Z * Z * Z) (r0 : coordinate) condition :
  sites sizes r0 condition
  = sites (Z.of_nat (Z.to_nat sizes.1.1), Z.of_nat (Z.to_nat sizes.1.2),
           Z.of_nat (Z.to_nat sizes.2)) r0 condition.
Proof.
  destruct r0 as [[X0 Y0] Z0]. unfold sites, seqZ. simpl.
  by rewrite !Nat2Z.id.
Qed.

Lemma row_major_digits (sy sz x y z : nat) :
  (y < sy)%nat -> (z < sz)%nat ->
  let n := ((x * sy + y) * sz + z)%nat in
  (n / (sy * sz) = x /\ (n / sz) mod sy = y /\ n mod sz = z)%nat.
Proof.
  intros Hy Hz n.
  assert (n / sz = x * sy + y)%nat as Hdiv.
  { unfold n. rewrite Nat.add_comm, Nat.div_add by lia.
    rewrite Nat.div_small by done. done. }
  split; [|split].
  - rewrite (Nat.mul_comm sy sz), <- Nat.Div0.div_div, Hdiv.
    rewrite Nat.add_comm, Nat.div_add by lia. by rewrite Nat.div_small.
  - rewrite Hdiv, Nat.add_comm, Nat.Div0.mod_add. by apply Nat.mod_small.
  - unfold n. rewrite Nat.add_comm, Nat.Div0.mod_add. by apply Nat.mod_small.
Qed.

(** X1.  A lattice built without boundary predicate has one site per
    position of the box, [Lx * Ly * Lz] in all, and numbers them row by
    row: the position [(X0 + x, Y0 + y, Z0 + z)] has the index
    [(x * Ly + y) * Lz + z], which is what [vertex_index] returns and
    where [coord] holds the position. *)
Theorem full_box_vertex_index sizes hopping r0 L :
  init sizes hopping r0 None = Ok L ->
  let sx := Z.to_nat sizes.1.1 in
  let sy := Z.to_nat sizes.1.2 in
  let sz := Z.to_nat sizes.2 in
  size L = (sx * sy * sz)%nat /\
  forall x y z : nat,
    (x < sx)%nat -> (y < sy)%nat -> (z < sz)%nat ->
    let r := (r0.1.1 + Z.of_nat x, r0.1.2 + Z.of_nat y, r0.2 + Z.of_nat z)%Z in
    let n := ((x * sy + y) * sz + z)%nat in
    vertex_index L r = Some n /\ coord L !! n = Some r.
Proof.
  intros HL sx sy sz.
  pose proof (init_Ok _ _ _ _ _ HL) as (Hcoord & Hmap & Hsize & _).
  simpl in Hcoord. rewrite sites_to_nat in Hcoord.
  destruct (sites_full sx sy sz r0) as [Hlen Hlook].
  fold sx sy sz in Hcoord.
  split; [by rewrite Hsize, Hcoord|].
  intros x y z Hx Hy Hz r n.
  assert (n < sx * sy * sz)%nat as Hlt.
  { assert (x * sy + y + 1 <= sx * sy)%nat as H1 by nia.
    apply (Nat.mul_le_mono_r _ _ sz) in H1. unfold n. lia. }
  assert (coord L !! n = Some r) as Hn.
  { rewrite Hcoord, Hlook by done. unfold n.
    destruct (row_major_digits sy sz x y z Hy Hz) as (-> & -> & ->). done. }
  split; [|done]. unfold vertex_index. rewrite Hmap.
  apply index_map_Some; [|done]. rewrite Hcoord. apply sites_NoDup.
Qed.

(** A box of 2 by 3 by 4 sites with corner [(5, 0, -1)]. *)
Lemma full_box_vertex_index_witness :
  match init (2, 3, 4)%Z (fun X Y Z => [(1, (X, Y, Z))]) (5, 0, -1)%Z None with
  | Ok L => size L = 24%nat /\ vertex_index L (6, 2, 2)%Z = Some 23%nat
  | Raise _ => False
  end.
Proof.
  assert (is_ok (init (2, 3, 4)%Z (fun X Y Z => [(1, (X, Y, Z))])
                   (5, 0, -1)%Z None)) as Hok by (vm_compute; exact I).
  destruct (init (2, 3, 4)%Z _ (5, 0, -1)%Z None) as [L|] eqn:HL; [|done].
  destruct (full_box_vertex_index _ _ _ L HL) as [Hsize Hidx].
  split; [exact Hsize|].
  exact (proj1 (Hidx 1%nat 2%nat 3%nat ltac:(simpl; lia) ltac:(simpl; lia)
                  ltac:(simpl; lia))).
Defined.

(** ** When a lattice can be built *)

Lemma hop_triples_nonempty hopping (coord : list coordinate) :
  (forall X Y Z, exists w, (w, (X, Y, Z)) ∈ hopping X Y Z) ->
  coord ≠ [] -> hop_triples hopping coord (index_map coord) ≠ [].
Proof.
  intros Hself Hne Hnil. destruct coord as [|[[X Y] Z] rest]; [done|].
  destruct (Hself X Y Z) as [w Hw].
  destruct (index_map ((X, Y, Z) :: rest) !! (X, Y, Z)) as [k|] eqn:Hk.
  2:{ apply index_map_None in Hk. apply Hk. by left. }
  assert ((w, O, k) ∈ hop_triples hopping ((X, Y, Z) :: rest)
                        (index_map ((X, Y, Z) :: rest))) as Hin.
  { rewrite hop_triples_sites. apply list_elem_of_bind.
    exists (O, (X, Y, Z)). split; [|by left].
    unfold site_triples. apply list_elem_of_bind. exists (w, (X, Y, Z)).
    split; [|done]. simpl. rewrite Hk. by left. }
  rewrite Hnil in Hin. by apply elem_of_nil in Hin.
Qed.


Lemma init_built sizes hopping r0 condition :
  (forall X Y Z, exists w, (w, (X, Y, Z)) ∈ hopping X Y Z) ->
  let admitted := sites sizes r0 (default (fun _ _ _ => true) condition) in
  match init sizes hopping r0 condition with
  | Ok L => admitted ≠ [] /\ coord L = admitted
  | Raise e => e = IndexError /\ admitted = []
  end.
Proof.
  intros Hself admitted.
  pose proof (init_ok_iff sizes hopping r0 condition) as Hiff.
  cbv zeta in Hiff. fold admitted in Hiff.
  destruct (init sizes hopping r0 condition) as [L|e] eqn:HL.
  - pose proof (init_Ok _ _ _ _ _ HL) as (Hcoord & _). split; [|done].
    intros Hnil. apply (proj1 Hiff I). by rewrite Hnil.
  - assert (admitted = []) as Hnil.
    { destruct (decide (admitted = [])) as [|Hne]; [done|]. exfalso.
      apply (proj2 Hiff). by apply hop_triples_nonempty. }
    split; [|done]. revert HL. unfold init. cbv zeta. fold admitted.
    rewrite Hnil. simpl. by intros [= <-].
Qed.

Lemma named_built (r : result Regular3DLattice) (J : list Qc) (ω : Qc)
    (admitted : list coordinate) :
  match r with
  | Ok L => admitted ≠ [] /\ coord L = admitted
  | Raise e => e = IndexError /\ admitted = []
  end ->
  built_on (base ← r; Ok (mkNamed base J ω)) admitted.
Proof. by destruct r. Qed.

(** X2.  Each of the five named lattices is built exactly when the box
    and the boundary predicate admit at least one site, and then its
    sites are the admitted positions; when no site is admitted (for
    instance a length that is zero or negative) the constructor raises
    [IndexError]. *)
Theorem named_lattices_built :
  (forall L J ω r0 condition,
     built_on (Lattice1D L J ω r0 condition)
       (sites (L, 1, 1)%Z r0 (default (fun _ _ _ => true) condition))) /\
  (forall Lx Ly Jx Jy ω r0 condition,
     built_on (SquareLattice Lx Ly Jx Jy ω r0 condition)
       (sites (Lx, default Lx Ly, 1)%Z r0
          (default (fun _ _ _ => true) condition))) /\
  (forall L Jx Jy ω r0,
     built_on (RhombusLattice L Jx Jy ω r0)
       (sites (2 * L + 1, 2 * L + 1, 1)%Z (r0.1.1 - L, r0.1.2 - L, r0.2)%Z
          (rhombus_condition L r0.1.1 r0.1.2))) /\
  (forall Lx Ly Lz Jx Jy Jz ω r0 condition,
     built_on (CubicLattice Lx Ly Lz Jx Jy Jz ω r0 condition)
       (sites (Lx, default Lx Ly, default Lx Lz) r0
          (default (fun _ _ _ => true) condition))) /\
  (forall Lx Ly Lz J ω r0,
     built_on (BCCLattice Lx Ly Lz J ω r0)
       (sites (Lx, default Lx Ly, default Lx Lz) r0 bcc_condition)).
Proof.
  repeat split.
  - intros. apply named_built, init_built. intros X Y Z. eexists. by left.
  - intros. apply named_built, init_built. intros X Y Z. eexists. by left.
  - intros L Jx Jy ω [[X0 Y0] Z0]. apply named_built.
    apply (init_built _ _ _ (Some _)). intros X Y Z. eexists. by left.
  - intros. apply named_built, init_built. intros X Y Z. eexists. by left.
  - intros. apply named_built.
    apply (init_built _ _ _ (Some _)). intros X Y Z. eexists. by left.
Qed.


Lemma init_dimension sizes hopping r0 condition L :
  init sizes hopping r0 condition = Ok L ->
  dimension L = if decide (1 < sizes.2)%Z then 3%nat
                else if decide (1 < sizes.1.2)%Z then 2%nat else 1%nat.
Proof.
  unfold init. cbv zeta.
  destruct (hop_triples hopping _ _) as [|t hops] eqn:Hhops; [done|].
  destruct (sites sizes r0 _) as [|[[x0 y0] z0] rest] eqn:Hsites; [done|].
  by intros [= <-].
Qed.

(** ** The chain *)

Ltac tuple_eq := apply f_equal2; [apply f_equal2|]; lia.
Ltac tuple_ne := let Heq := fresh in intros Heq; inversion Heq; lia.

Lemma weight_hopping1d (J ω : Qc) (X_0 Y_0 Z_0 : Z) (i k : nat) :
  weight (hopping1d J ω)
    (X_0 + Z.of_nat i, Y_0, Z_0)%Z (X_0 + Z.of_nat k, Y_0, Z_0)%Z
  = if decide (i = k) then ω
    else if decide (i = S k \/ k = S i) then J else 0.
Proof.
  unfold weight, hopping_at, hopping1d.
  rewrite !filter_cons, filter_nil. simpl.
  destruct (decide (i = k)) as [->|Hik].
  - rewrite (decide_True (P := (_, _, _) = (_, _, _))) by done.
    rewrite (decide_False (P := (_, _, _) = (_, _, _))); [|tuple_ne].
    rewrite (decide_False (P := (_, _, _) = (_, _, _))); [|tuple_ne].
    csimpl. ring.
  - rewrite (decide_False (P := (_, _, _) = (_, _, _))); [|tuple_ne].
    destruct (decide (k = S i)) as [->|Hk].
    + rewrite (decide_True (P := (_, _, _) = (_, _, _))); [|tuple_eq].
      rewrite (decide_False (P := (_, _, _) = (_, _, _))); [|tuple_ne].
      rewrite (decide_True (P := _ \/ _)) by (by right). csimpl. ring.
    + rewrite (decide_False (P := (_, _, _) = (_, _, _))); [|tuple_ne].
      destruct (decide (i = S k)) as [->|Hi].
      * rewrite (decide_True (P := (_, _, _) = (_, _, _))); [|tuple_eq].
        rewrite (decide_True (P := _ \/ _)) by (by left). csimpl. ring.
      * rewrite (decide_False (P := (_, _, _) = (_, _, _))); [|tuple_ne].
        rewrite (decide_False (P := _ \/ _)) by (intros [?|?]; done). done.
Qed.

(** X3.  [Lattice1D(L, J, ω)] with [L >= 1] and no boundary predicate is
    a chain of [L] sites, of dimension 1, whose matrix is tridiagonal:
    [ω] on the diagonal, [J] next to it, zero elsewhere.  The two ends
    have one neighbour only; nothing wraps around. *)
Theorem lattice1d_tridiagonal (L : Z) (J ω : Qc) (r0 : coordinate) :
  (0 < L)%Z ->
  exists lat,
    Lattice1D L J ω r0 None = Ok lat /\
    size (lattice lat) = Z.to_nat L /\
    dimension (lattice lat) = 1%nat /\
    forall i k, (i < Z.to_nat L)%nat -> (k < Z.to_nat L)%nat ->
      coord (lattice lat) !! i = Some (r0.1.1 + Z.of_nat i, r0.1.2, r0.2)%Z /\
      sp_at (hamiltonian (lattice lat)) i k
      = if decide (i = k) then ω
        else if decide (i = S k \/ k = S i) then J else 0.
Proof.
  intros HL. unfold Lattice1D.
  pose proof (init_built (L, 1, 1)%Z (hopping1d J ω) r0 None) as Hb.
  specialize (Hb ltac:(intros X Y Z; eexists; by left)). cbv zeta in Hb.
  destruct (sites_full (Z.to_nat L) 1 1 r0) as [Hlen Hlook].
  assert (sites (L, 1, 1)%Z r0 (fun _ _ _ => true)
          = sites (Z.of_nat (Z.to_nat L), Z.of_nat 1, Z.of_nat 1) r0
              (fun _ _ _ => true)) as Hs by apply sites_to_nat.
  simpl in Hb. rewrite Hs in Hb.
  rewrite !Nat.mul_1_r in Hlen, Hlook.
  destruct (init (L, 1, 1)%Z (hopping1d J ω) r0 None) as [base|e] eqn:Hinit.
  2:{ destruct Hb as [_ Hnil]. rewrite Hnil in Hlen. simpl in Hlen. lia. }
  destruct Hb as [_ Hcoord]. simpl. eexists. split; [done|]. simpl.
  destruct (init_shape _ _ _ _ _ Hinit) as (_ & _ & Hsize).
  split; [by rewrite Hsize, Hcoord|]. split.
  { by rewrite (init_dimension _ _ _ _ _ Hinit). }
  assert (forall i, (i < Z.to_nat L)%nat ->
            coord base !! i = Some (r0.1.1 + Z.of_nat i, r0.1.2, r0.2)%Z) as Hc.
  { intros i Hi. rewrite Hcoord, Hlook by done.
    rewrite Nat.div_1_r, Nat.mod_1_r. simpl. repeat f_equal; lia. }
  intros i k Hi Hk. split; [by apply Hc|].
  unfold hamiltonian.
  rewrite (init_entry _ _ _ _ _ i k _ _ Hinit (Hc i Hi) (Hc k Hk)).
  apply weight_hopping1d.
Qed.


(** A chain of four sites. *)
Lemma lattice1d_tridiagonal_witness :
  (0 < 4)%Z /\
  exists lat,
    Lattice1D 4 (Qc_of_Z 2) (Qc_of_Z 7) (0, 0, 0)%Z None = Ok lat /\
    size (lattice lat) = 4%nat /\
    dimension (lattice lat) = 1%nat /\
    forall i k, (i < 4)%nat -> (k < 4)%nat ->
      coord (lattice lat) !! i = Some (0 + Z.of_nat i, 0, 0)%Z /\
      sp_at (hamiltonian (lattice lat)) i k
      = if decide (i = k) then Qc_of_Z 7
        else if decide (i = S k \/ k = S i) then Qc_of_Z 2 else 0.
Proof.
  split; [lia|].
  apply (lattice1d_tridiagonal 4 (Qc_of_Z 2) (Qc_of_Z 7) (0, 0, 0)%Z). lia.
Defined.

(** ** Symmetry *)

Lemma weight_ext (h1 h2 : Z -> Z -> Z -> list (Qc * coordinate)) (a b : coordinate) :
  (forall X Y Z, h1 X Y Z = h2 X Y Z) -> weight h1 a b = weight h2 a b.
Proof.
  intros Hh. unfold weight, hopping_at. destruct a as [[X Y] Z]. by rewrite Hh.
Qed.

Ltac stencil_eq :=
  intros; unfold stencil_rule, shift; simpl;
  repeat (apply f_equal2; [apply f_equal2; [reflexivity|tuple_eq]|]);
  reflexivity.

Lemma hopping1d_stencil (J ω : Qc) (X Y Z : Z) :
  hopping1d J ω X Y Z
  = stencil_rule [(ω, (0, 0, 0)); (J, (1, 0, 0)); (J, (-1, 0, 0))]%Z X Y Z.
Proof. unfold hopping1d. stencil_eq. Qed.

Lemma hopping2d_stencil (Jx Jy ω : Qc) (X Y Z : Z) :
  hopping2d Jx Jy ω X Y Z
  = stencil_rule [(ω, (0, 0, 0)); (Jx, (1, 0, 0)); (Jx, (-1, 0, 0));
                  (Jy, (0, 1, 0)); (Jy, (0, -1, 0))]%Z X Y Z.
Proof. unfold hopping2d. stencil_eq. Qed.

Lemma hopping3d_stencil (Jx Jy Jz ω : Qc) (X Y Z : Z) :
  hopping3d Jx Jy Jz ω X Y Z
  = stencil_rule [(ω, (0, 0, 0)); (Jx, (1, 0, 0)); (Jx, (-1, 0, 0));
                  (Jy, (0, 1, 0)); (Jy, (0, -1, 0));
                  (Jz, (0, 0, 1)); (Jz, (0, 0, -1))]%Z X Y Z.
Proof. unfold hopping3d. stencil_eq. Qed.

Lemma bcc_hopping_stencil (J ω : Qc) (X Y Z : Z) :
  bcc_hopping J ω X Y Z
  = stencil_rule [(ω, (0, 0, 0));
                  (J, (1, 1, 1)); (J, (-1, -1, 1));
                  (J, (1, -1, 1)); (J, (-1, 1, 1));
                  (J, (1, 1, -1)); (J, (-1, -1, -1));
                  (J, (1, -1, -1)); (J, (-1, 1, -1))]%Z X Y Z.
Proof. unfold bcc_hopping. stencil_eq. Qed.

Ltac reciprocal_by stencil_lemma :=
  intros a b;
  rewrite (weight_ext _ _ a b (stencil_lemma));
  rewrite (weight_ext _ _ b a (stencil_lemma));
  apply stencil_reciprocal; unfold reversed; simpl; solve_Permutation.

Lemma hopping1d_reciprocal (J ω : Qc) (a b : coordinate) :
  weight (hopping1d J ω) a b = weight (hopping1d J ω) b a.
Proof. revert a b. reciprocal_by (hopping1d_stencil J ω). Qed.

Lemma hopping2d_reciprocal (Jx Jy ω : Qc) (a b : coordinate) :
  weight (hopping2d Jx Jy ω) a b = weight (hopping2d Jx Jy ω) b a.
Proof. revert a b. reciprocal_by (hopping2d_stencil Jx Jy ω). Qed.

Lemma hopping3d_reciprocal (Jx Jy Jz ω : Qc) (a b : coordinate) :
  weight (hopping3d Jx Jy Jz ω) a b = weight (hopping3d Jx Jy Jz ω) b a.
Proof. revert a b. reciprocal_by (hopping3d_stencil Jx Jy Jz ω). Qed.

Lemma bcc_hopping_reciprocal (J ω : Qc) (a b : coordinate) :
  weight (bcc_hopping J ω) a b = weight (bcc_hopping J ω) b a.
Proof. revert a b. reciprocal_by (bcc_hopping_stencil J ω). Qed.

Lemma named_symmetric (r : result Regular3DLattice) (J : list Qc) (ω : Qc)
    (lat : NamedLattice) :
  (forall base, r = Ok base -> sp_symmetric (_H base)) ->
  (base ← r; Ok (mkNamed base J ω)) = Ok lat ->
  sp_symmetric (hamiltonian (lattice lat)).
Proof. destruct r as [base|]; [|done]. simpl. intros Hs [= <-]. by apply Hs. Qed.

(** X4.  The matrix of every named lattice is symmetric, for every size,
    corner, hopping amplitude and boundary predicate: each of the five
    hopping rules gives, with every displacement, the opposite
    displacement with the same amplitude. *)
Theorem named_lattices_symmetric :
  (forall L J ω r0 condition lat,
     Lattice1D L J ω r0 condition = Ok lat ->
     sp_symmetric (hamiltonian (lattice lat))) /\
  (forall Lx Ly Jx Jy ω r0 condition lat,
     SquareLattice Lx Ly Jx Jy ω r0 condition = Ok lat ->
     sp_symmetric (hamiltonian (lattice lat))) /\
  (forall L Jx Jy ω r0 lat,
     RhombusLattice L Jx Jy ω r0 = Ok lat ->
     sp_symmetric (hamiltonian (lattice lat))) /\
  (forall Lx Ly Lz Jx Jy Jz ω r0 condition lat,
     CubicLattice Lx Ly Lz Jx Jy Jz ω r0 condition = Ok lat ->
     sp_symmetric (hamiltonian (lattice lat))) /\
  (forall Lx Ly Lz J ω r0 lat,
     BCCLattice Lx Ly Lz J ω r0 = Ok lat ->
     sp_symmetric (hamiltonian (lattice lat))).
Proof.
  repeat split.
  - intros L J' w r0 c lat. apply named_symmetric. intros base Hb.
    eapply reciprocal_symmetric; [exact Hb|]. apply hopping1d_reciprocal.
  - intros Lx Ly Jx Jy w r0 c lat. apply named_symmetric. intros base Hb.
    eapply reciprocal_symmetric; [exact Hb|]. apply hopping2d_reciprocal.
  - intros L Jx Jy w [[X0 Y0] Z0] lat. apply named_symmetric. intros base Hb.
    eapply reciprocal_symmetric; [exact Hb|]. apply hopping2d_reciprocal.
  - intros Lx Ly Lz Jx Jy Jz w r0 c lat. apply named_symmetric. intros base Hb.
    eapply reciprocal_symmetric; [exact Hb|]. apply hopping3d_reciprocal.
  - intros Lx Ly Lz J' w r0 lat. apply named_symmetric. intros base Hb.
    eapply reciprocal_symmetric; [exact Hb|]. apply bcc_hopping_reciprocal.
Qed.


(** A body-centered lattice in a box of 3 by 3 by 3 and a rhombus of
    half-diagonal 2. *)
Lemma named_lattices_symmetric_witness :
  match BCCLattice 3 None None (Qc_of_Z 2) (Qc_of_Z 5) (0, 0, 0)%Z,
        RhombusLattice 2 (Qc_of_Z 2) (Some (Qc_of_Z 3)) 1 (4, 4, 0)%Z with
  | Ok bcc, Ok rh =>
      sp_symmetric (hamiltonian (lattice bcc)) /\
      sp_symmetric (hamiltonian (lattice rh))
  | _, _ => False
  end.
Proof.
  assert (is_ok (BCCLattice 3 None None (Qc_of_Z 2) (Qc_of_Z 5) (0, 0, 0)%Z))
    as Hok1 by (vm_compute; exact I).
  assert (is_ok (RhombusLattice 2 (Qc_of_Z 2) (Some (Qc_of_Z 3)) 1 (4, 4, 0)%Z))
    as Hok2 by (vm_compute; exact I).
  destruct (BCCLattice 3 None None _ _ _) as [bcc|] eqn:H1; [|done].
  destruct (RhombusLattice 2 _ _ 1 _) as [rh|] eqn:H2; [|done].
  destruct named_lattices_symmetric as (_ & _ & Hrh & _ & Hbcc).
  split; [by eapply Hbcc | by eapply Hrh].
Defined.

(** ** The body-centered lattice *)

Lemma bcc_condition_true (X Y Z : Z) :
  bcc_condition X Y Z = true <-> (X mod 2 = Y mod 2 /\ X mod 2 = Z mod 2)%Z.
Proof.
  unfold bcc_condition. rewrite andb_true_iff, !bool_decide_eq_true. done.
Qed.

(** The hops of the rule stay on the sublattice of the predicate. *)
Lemma bcc_hopping_parity (J ω : Qc) (X Y Z : Z) (hop : Qc * coordinate) :
  bcc_condition X Y Z = true -> hop ∈ bcc_hopping J ω X Y Z ->
  bcc_condition hop.2.1.1 hop.2.1.2 hop.2.2 = true.
Proof.
  rewrite bcc_condition_true. intros [Hxy Hxz] Hin.
  unfold bcc_hopping in Hin.
  repeat (apply elem_of_cons in Hin as [->|Hin];
          [apply bcc_condition_true; simpl; split;
           Z.div_mod_to_equations; lia|]).
  by apply elem_of_nil in Hin.
Qed.

(** X5.  In a body-centered lattice the predicate keeps the positions
    whose three coordinates have the same parity, and every hop of the
    rule from such a position leads to another one: a hop from a site
    of the lattice is dropped only when its target is outside the box. *)
Theorem bcc_hops_stay_in_lattice Lx Ly Lz (J ω : Qc) (r0 : coordinate) lat :
  BCCLattice Lx Ly Lz J ω r0 = Ok lat ->
  let sizes := (Lx, default Lx Ly, default Lx Lz) in
  (forall r, r ∈ coord (lattice lat) <->
             in_box sizes r0 r /\
             (r.1.1 mod 2 = r.1.2 mod 2 /\ r.1.1 mod 2 = r.2 mod 2)%Z) /\
  forall a hop,
    a ∈ coord (lattice lat) -> hop ∈ hopping_at (bcc_hopping J ω) a ->
    (hop.2 ∈ coord (lattice lat) <-> in_box sizes r0 hop.2).
Proof.
  intros Hlat sizes. unfold BCCLattice in Hlat. cbv zeta in Hlat. fold sizes in Hlat.
  destruct (init _ (bcc_hopping J ω) r0 (Some bcc_condition)) as [base|] eqn:Hb;
    [|done].
  injection Hlat as <-. simpl.
  pose proof (init_Ok _ _ _ _ _ Hb) as (Hcoord & _). simpl in Hcoord.
  assert (forall r, r ∈ coord base <->
            in_box sizes r0 r /\ bcc_condition r.1.1 r.1.2 r.2 = true) as Hmem.
  { intros r. rewrite Hcoord. apply elem_of_sites. }
  split.
  - intros r. rewrite Hmem, bcc_condition_true. done.
  - intros [[X Y] Z] hop [_ Ha]%Hmem Hhop. simpl in *.
    rewrite Hmem. split; [by intros [? _]|]. intros Hbox. split; [done|].
    by eapply bcc_hopping_parity.
Qed.


(** A box of 3 by 3 by 3 sites with corner [(0, 0, 0)]. *)
Lemma bcc_hops_stay_in_lattice_witness :
  match BCCLattice 3 None None (Qc_of_Z 2) (Qc_of_Z 5) (0, 0, 0)%Z with
  | Ok lat =>
      forall a hop,
        a ∈ coord (lattice lat) ->
        hop ∈ hopping_at (bcc_hopping (Qc_of_Z 2) (Qc_of_Z 5)) a ->
        (hop.2 ∈ coord (lattice lat) <-> in_box (3, 3, 3)%Z (0, 0, 0)%Z hop.2)
  | Raise _ => False
  end.
Proof.
  assert (is_ok (BCCLattice 3 None None (Qc_of_Z 2) (Qc_of_Z 5) (0, 0, 0)%Z))
    as Hok by (vm_compute; exact I).
  destruct (BCCLattice 3 None None _ _ _) as [lat|] eqn:Hlat; [|done].
  exact (proj2 (bcc_hops_stay_in_lattice _ _ _ _ _ _ _ Hlat)).
Defined.

(** ** The rhombus *)

Lemma rhombus_condition_true (L X_0 Y_0 X Y Z : Z) :
  rhombus_condition L X_0 Y_0 X Y Z = true <->
  (Z.abs ((X - X_0) - (Y - Y_0)) <= L /\ Z.abs ((X - X_0) + (Y - Y_0)) <= L)%Z.
Proof.
  unfold rhombus_condition. rewrite andb_true_iff, !bool_decide_eq_true. done.
Qed.

Lemma rhombus_sites (L X_0 Y_0 Z_0 : Z) (r : coordinate) :
  r ∈ sites (2 * L + 1, 2 * L + 1, 1)%Z (X_0 - L, Y_0 - L, Z_0)%Z
        (rhombus_condition L X_0 Y_0)
  <-> in_rhombus L (X_0, Y_0, Z_0) r.
Proof.
  rewrite elem_of_sites, rhombus_condition_true.
  destruct r as [[X Y] Z]. unfold in_box, in_rhombus. simpl. lia.
Qed.

Lemma init_built_with sizes hopping r0 (cond : Z -> Z -> Z -> bool) :
  (forall X Y Z, exists w, (w, (X, Y, Z)) ∈ hopping X Y Z) ->
  match init sizes hopping r0 (Some cond) with
  | Ok L => sites sizes r0 cond ≠ [] /\ coord L = sites sizes r0 cond
  | Raise e => e = IndexError /\ sites sizes r0 cond = []
  end.
Proof. intros Hself. exact (init_built sizes hopping r0 (Some cond) Hself). Qed.

(** X6.  The box that [RhombusLattice] gives to the generic constructor
    does not cut the rhombus: for [L >= 0] the sites are exactly the
    positions [(X, Y, Z0)] with [|x - y| <= L] and [|x + y| <= L], where
    [(x, y)] is the position relative to the center [r0]; the center is
    one of them.  For [L < 0] there is no site and the constructor
    raises [IndexError]. *)
Theorem rhombus_lattice_sites (L : Z) (Jx : Qc) (Jy : option Qc) (ω : Qc)
    (r0 : coordinate) :
  match RhombusLattice L Jx Jy ω r0 with
  | Ok lat =>
      (0 <= L)%Z /\ r0 ∈ coord (lattice lat) /\
      forall r, r ∈ coord (lattice lat) <-> in_rhombus L r0 r
  | Raise e => (L < 0)%Z /\ e = IndexError
  end.
Proof.
  destruct r0 as [[X0 Y0] Z0]. unfold RhombusLattice.
  pose proof (rhombus_sites L X0 Y0 Z0) as Hmem.
  pose proof (init_built_with (2 * L + 1, 2 * L + 1, 1)%Z
                (hopping2d Jx (default Jx Jy) ω) (X0 - L, Y0 - L, Z0)%Z
                (rhombus_condition L X0 Y0)
                ltac:(intros X Y Z; eexists; by left)) as Hb.
  assert (in_rhombus L (X0, Y0, Z0) (X0, Y0, Z0) <-> (0 <= L)%Z) as Hcenter.
  { unfold in_rhombus. simpl. lia. }
  destruct (init _ _ _ _) as [base|e]; simpl.
  - destruct Hb as [Hne Hcoord]. rewrite Hcoord.
    assert (0 <= L)%Z as HL.
    { destruct (sites _ _ _) as [|r rest] eqn:Hs; [done|].
      assert (in_rhombus L (X0, Y0, Z0) r) as Hr by (apply Hmem; by left).
      unfold in_rhombus in Hr. lia. }
    split; [done|]. split; [|done]. by apply Hmem, Hcenter.
  - destruct Hb as [-> Hnil]. split; [|done].
    destruct (decide (L < 0)%Z) as [|Hge]; [done|]. exfalso.
    assert ((X0, Y0, Z0) ∈ @nil coordinate) as Hin.
    { rewrite <- Hnil. apply Hmem, Hcenter. lia. }
    by apply elem_of_nil in Hin.
Qed.

(** ** The bounds of a lattice *)

Lemma min_of_spec (a0 : Z) (a : list Z) :
  min_of a0 a ∈ a0 :: a /\ forall x, x ∈ a0 :: a -> (min_of a0 a <= x)%Z.
Proof.
  induction a as [|y a [IHin IHle]]; simpl.
  - split; [by left|]. intros x ->%list_elem_of_singleton. done.
  - split.
    + destruct (Z.min_spec y (min_of a0 a)) as [[_ ->]|[_ ->]].
      * right. by left.
      * apply elem_of_cons in IHin as [->|?]; [by left|]. right. by right.
    + intros x Hx. apply elem_of_cons in Hx as [->|Hx].
      * specialize (IHle a0 ltac:(by left)). lia.
      * apply elem_of_cons in Hx as [->|Hx]; [lia|].
        specialize (IHle x ltac:(by right)). lia.
Qed.

Lemma max_of_spec (a0 : Z) (a : list Z) :
  max_of a0 a ∈ a0 :: a /\ forall x, x ∈ a0 :: a -> (x <= max_of a0 a)%Z.
Proof.
  induction a as [|y a [IHin IHle]]; simpl.
  - split; [by left|]. intros x ->%list_elem_of_singleton. done.
  - split.
    + destruct (Z.max_spec y (max_of a0 a)) as [[_ ->]|[_ ->]].
      * apply elem_of_cons in IHin as [->|?]; [by left|]. right. by right.
      * right. by left.
    + intros x Hx. apply elem_of_cons in Hx as [->|Hx].
      * specialize (IHle a0 ltac:(by left)). lia.
      * apply elem_of_cons in Hx as [->|Hx]; [lia|].
        specialize (IHle x ltac:(by right)). lia.
Qed.

Lemma init_bounds sizes hopping r0 condition L :
  init sizes hopping r0 condition = Ok L ->
  exists x0 y0 z0 rest,
    coord L = (x0, y0, z0) :: rest /\
    Xmin L = min_of x0 (rest.*1.*1) /\ Xmax L = max_of x0 (rest.*1.*1) /\
    Ymin L = min_of y0 (rest.*1.*2) /\ Ymax L = max_of y0 (rest.*1.*2) /\
    Zmin L = min_of z0 (rest.*2) /\ Zmax L = max_of z0 (rest.*2).
Proof.
  unfold init. cbv zeta.
  destruct (hop_triples hopping _ _) as [|t hops] eqn:Hhops; [done|].
  destruct (sites sizes r0 _) as [|[[x0 y0] z0] rest] eqn:Hsites; [done|].
  intros [= <-]. simpl. by exists x0, y0, z0, rest.
Qed.

(** X7.  The six bounds stored in a lattice are tight: every site has
    its coordinates between them, and each bound is the coordinate of
    some site. *)
Theorem lattice_bounds_tight sizes hopping r0 condition L :
  init sizes hopping r0 condition = Ok L ->
  (forall r, r ∈ coord L ->
     (Xmin L <= r.1.1 <= Xmax L /\ Ymin L <= r.1.2 <= Ymax L /\
      Zmin L <= r.2 <= Zmax L)%Z) /\
  (exists r, r ∈ coord L /\ r.1.1 = Xmin L) /\
  (exists r, r ∈ coord L /\ r.1.1 = Xmax L) /\
  (exists r, r ∈ coord L /\ r.1.2 = Ymin L) /\
  (exists r, r ∈ coord L /\ r.1.2 = Ymax L) /\
  (exists r, r ∈ coord L /\ r.2 = Zmin L) /\
  (exists r, r ∈ coord L /\ r.2 = Zmax L).
Proof.
  intros (x0 & y0 & z0 & rest & Hcoord & -> & -> & -> & -> & -> & ->)%init_bounds.
  rewrite Hcoord.
  assert (forall (f : coordinate -> Z) (r : coordinate),
            r ∈ (x0, y0, z0) :: rest -> f r ∈ f (x0, y0, z0) :: (f <$> rest)) as Hf.
  { intros f r Hr. by apply (list_elem_of_fmap_2 f) in Hr. }
  assert (forall (f : coordinate -> Z) (v : Z),
            v ∈ f (x0, y0, z0) :: (f <$> rest) ->
            exists r, r ∈ (x0, y0, z0) :: rest /\ f r = v) as Hback.
  { intros f v Hv. change (v ∈ f <$> ((x0, y0, z0) :: rest)) in Hv.
    apply list_elem_of_fmap in Hv as (r & -> & Hr). by exists r. }
  split.
  - intros r Hr.
    pose proof (Hf (fun r => r.1.1) r Hr) as Hx.
    pose proof (Hf (fun r => r.1.2) r Hr) as Hy.
    pose proof (Hf (fun r => r.2) r Hr) as Hz.
    rewrite <- !list_fmap_compose in *.
    repeat split.
    + by apply (min_of_spec x0).
    + by apply (max_of_spec x0).
    + by apply (min_of_spec y0).
    + by apply (max_of_spec y0).
    + by apply (min_of_spec z0).
    + by apply (max_of_spec z0).
  - rewrite <- !list_fmap_compose. repeat split.
    + apply (Hback (fun r => r.1.1)), (min_of_spec x0).
    + apply (Hback (fun r => r.1.1)), (max_of_spec x0).
    + apply (Hback (fun r => r.1.2)), (min_of_spec y0).
    + apply (Hback (fun r => r.1.2)), (max_of_spec y0).
    + apply (Hback (fun r => r.2)), (min_of_spec z0).
    + apply (Hback (fun r => r.2)), (max_of_spec z0).
Qed.


(** A rhombus of half-diagonal 2 centered at [(4, 4, 0)]: the bounds are
    2 and 6 on both axes. *)
Lemma lattice_bounds_tight_witness :
  match init (5, 5, 1)%Z (hopping2d 1 1 1) (2, 2, 0)%Z
             (Some (rhombus_condition 2 4 4)) with
  | Ok L =>
      (forall r, r ∈ coord L ->
         (Xmin L <= r.1.1 <= Xmax L /\ Ymin L <= r.1.2 <= Ymax L /\
          Zmin L <= r.2 <= Zmax L)%Z) /\
      (exists r, r ∈ coord L /\ r.1.1 = Xmin L)
  | Raise _ => False
  end.
Proof.
  assert (is_ok (init (5, 5, 1)%Z (hopping2d 1 1 1) (2, 2, 0)%Z
                   (Some (rhombus_condition 2 4 4)))) as Hok
    by (vm_compute; exact I).
  destruct (init (5, 5, 1)%Z _ _ _) as [L|] eqn:HL; [|done].
  destruct (lattice_bounds_tight _ _ _ _ L HL) as (Hin & Hx & _).
  by split.
Defined.

(** ** Applying the matrix to a coupling vector *)

Lemma msum_single (n ndx : nat) (f : nat -> Qc) :
  (ndx < n)%nat -> (forall k, (k < n)%nat -> k ≠ ndx -> f k = 0) ->
  msum n f = f ndx.
Proof.
  induction n as [|n IH]; intros Hlt Hz; [lia|]. simpl.
  destruct (decide (ndx = n)) as [->|Hne].
  - rewrite (LinalgFacts.msum_ext n f (fun _ => 0)) by (intros; apply Hz; lia).
    rewrite LinalgFacts.msum_zero. ring.
  - rewrite IH by (try lia; intros; apply Hz; lia).
    rewrite (Hz n) by lia. ring.
Qed.

(** X8.  Applying a lattice to the coupling vector of a site gives the
    column of the matrix at the index of that site, times the coupling:
    [(H @ coupling_at(r, g))[i] = g * H[i, vertex_index(r)]]. *)
Theorem matvec_coupling_at sizes hopping r0 condition L (r : coordinate)
    (g : Qc) (gr : list Qc) :
  init sizes hopping r0 condition = Ok L ->
  coupling_at L r g = Ok gr ->
  exists ndx,
    vertex_index L r = Some ndx /\ (ndx < size L)%nat /\
    forall i c, _matvec L (column gr) i c = g * sp_at (hamiltonian L) i ndx.
Proof.
  intros HL Hgr.
  destruct (init_shape _ _ _ _ _ HL) as (Hr & Hc & Hsize).
  unfold coupling_at in Hgr. unfold vertex_index.
  destruct (ndx_map L !! r) as [ndx|]; [|done].
  rewrite length_replicate in Hgr. case_decide as Hlt; [|done].
  injection Hgr as <-. exists ndx. split; [done|]. split; [done|].
  intros i c. unfold _matvec, hamiltonian, sp_matmul, column.
  rewrite Hc, <- Hsize.
  rewrite (msum_single _ ndx) by first
    [ done
    | intros k Hk Hne; rewrite list_lookup_insert_ne by done;
      rewrite lookup_replicate_2 by done; simpl; ring ].
  rewrite list_lookup_insert_eq by (by rewrite length_replicate). simpl. ring.
Qed.

(** A chain of three sites and the site in the middle. *)
Lemma matvec_coupling_at_witness :
  match init (3, 1, 1)%Z (hopping1d (Qc_of_Z 2) (Qc_of_Z 7)) (0, 0, 0)%Z None with
  | Ok L =>
      match coupling_at L (1, 0, 0)%Z (Qc_of_Z 3) with
      | Ok gr =>
          exists ndx,
            vertex_index L (1, 0, 0)%Z = Some ndx /\ (ndx < size L)%nat /\
            forall i c, _matvec L (column gr) i c
                        = Qc_of_Z 3 * sp_at (hamiltonian L) i ndx
      | Raise _ => False
      end
  | Raise _ => False
  end.
Proof.
  assert (is_ok (L ← init (3, 1, 1)%Z (hopping1d (Qc_of_Z 2) (Qc_of_Z 7))
                        (0, 0, 0)%Z None;
                 coupling_at L (1, 0, 0)%Z (Qc_of_Z 3))) as Hok
    by (vm_compute; exact I).
  destruct (init (3, 1, 1)%Z _ _ None) as [L|] eqn:HL; [|done]. simpl in Hok.
  destruct (coupling_at L (1, 0, 0)%Z (Qc_of_Z 3)) as [gr|] eqn:Hgr; [|done].
  by eapply matvec_coupling_at.
Defined.

End LatticesFacts.

(* ===================================================================== *)
(** * Properties of the other methods of Transmons *)
(* ===================================================================== *)

Module CqedOpsFacts.
Import Py Linalg LinalgFacts Cqed CqedFacts CqedOps.

(** ** Diagonal and symmetric matrices *)


Lemma sp_eye_diag (n : nat) : sp_diag (sp_eye n).
Proof. intros i j Hne. simpl. rewrite decide_False; [done|]. by intros [? _]. Qed.

Lemma index_split (i j p : nat) :
  (i / p = j / p)%nat -> (i mod p = j mod p)%nat -> i = j.
Proof.
  intros Hd Hm. rewrite (Nat.div_mod_eq i p), (Nat.div_mod_eq j p). by rewrite Hd, Hm.
Qed.

Lemma sp_kron_diag (A B : spmatrix) :
  sp_cols B = sp_rows B -> sp_diag A -> sp_diag B -> sp_diag (sp_kron A B).
Proof.
  intros Hsq HA HB i j Hne. simpl. rewrite Hsq.
  destruct (decide (i / sp_rows B = j / sp_rows B)%nat) as [Hd|Hd].
  - rewrite (HB (i mod sp_rows B)%nat (j mod sp_rows B)%nat); [ring|].
    intros Hm. apply Hne. by eapply index_split.
  - rewrite (HA _ _ Hd). ring.
Qed.



Lemma sp_sub_diag (A B : spmatrix) : sp_diag A -> sp_diag B -> sp_diag (sp_sub A B).
Proof. intros HA HB i j Hne. simpl. rewrite HA, HB by done. ring. Qed.

Lemma sp_scale_diag (c : Qc) (A : spmatrix) : sp_diag A -> sp_diag (sp_scale c A).
Proof. intros HA i j Hne. simpl. rewrite HA by done. ring. Qed.



Lemma number_operator_diag (nmax : nat) : sp_diag (number_operator nmax).
Proof.
  intros i j Hne. unfold number_operator. simpl.
  rewrite decide_False; [done|]. intros [? _]. lia.
Qed.






(** ** What the constructor and [tune] keep *)




Lemma zip3_nil_inv {A B C : Type} (a : list A) (b : list B) (c : list C) (n : nat) :
  length a = n -> length b = n -> length c = n -> zip3 a b c = [] -> n = O.
Proof.
  intros Ha Hb Hc Hz. pose proof (zip3_length a b c n Ha Hb Hc) as Hl.
  by rewrite Hz in Hl.
Qed.


(** What [tune] leaves as it is, and what it assigns. *)
Lemma tune_fields self EJ g out :
  tune self EJ g = Ok out ->
  nqubits out = nqubits self /\ Ec out = Ec self /\ ng out = ng self /\
  shape out = shape self /\ nmax out = nmax self /\ N out = N self /\
  Hcap out = Hcap self /\ HJJ out = HJJ self /\
  match EJ with
  | None => Cqed.EJ out = Cqed.EJ self
  | Some p => broadcast1 p (nqubits self) = Ok (Cqed.EJ out)
  end /\
  (g = None -> Cqed.g out = Cqed.g self).
Proof.
  unfold tune. intros Hout.
  destruct EJ as [EJ|]; simpl in Hout.
  - destruct (broadcast1 EJ (nqubits self)) as [EJ'|]; simpl in Hout; [|done].
    destruct g as [g|]; simpl in Hout.
    + destruct (broadcast2 g (nqubits self)) as [g'|]; simpl in Hout; [|done].
      destruct (nd_add g' (nd_T g')) as [gs|]; simpl in Hout; [|done].
      by injection Hout as <-.
    + by injection Hout as <-.
  - destruct g as [g|]; simpl in Hout.
    + destruct (broadcast2 g (nqubits self)) as [g'|]; simpl in Hout; [|done].
      destruct (nd_add g' (nd_T g')) as [gs|]; simpl in Hout; [|done].
      by injection Hout as <-.
    + by injection Hout as <-.
Qed.








(** ** One qubit *)

Lemma length_one {A : Type} (l : list A) : length l = 1%nat -> exists x, l = [x].
Proof. destruct l as [|x [|y l]]; try done. intros _. by exists x. Qed.

Lemma qubit_operator_single (op : spmatrix) :
  qubit_operator op 0 1 = Ok (sp_kron (sp_eye 1) (sp_kron op (sp_eye 1))).
Proof. unfold qubit_operator. by rewrite decide_True by lia. Qed.

(** With a single qubit the lifted operator is the operator itself. *)
Lemma lifted_single_entry (op : spmatrix) (i j : nat) :
  sp_cols op = sp_rows op -> (i < sp_rows op)%nat -> (j < sp_rows op)%nat ->
  sp_at (sp_kron (sp_eye 1) (sp_kron op (sp_eye 1))) i j = sp_at op i j.
Proof.
  intros Hsq Hi Hj. cbn [sp_at sp_kron sp_eye sp_rows sp_cols].
  rewrite Hsq, !Nat.mul_1_r, !Nat.div_1_r, !Nat.mod_1_r.
  rewrite !Nat.div_small, !Nat.mod_small by done.
  rewrite !decide_True by (split; [done|lia]). ring.
Qed.

Lemma sp_mul_diag_entry (A B : spmatrix) (i j : nat) :
  sp_diag A -> (i < sp_cols A)%nat ->
  sp_at (sp_mul A B) i j = sp_at A i i * sp_at B i j.
Proof.
  intros HA Hi. simpl.
  rewrite (LatticesFacts.msum_single _ i) ; [done|done|].
  intros k _ Hne. rewrite (HA i k) by done. ring.
Qed.

Lemma init_single nmax (Ec EJ : param) (g : coupling) (ng : param) self :
  init 1 Ec EJ g ng nmax = Ok self ->
  exists e0 j0 n0,
    Cqed.Ec self = [e0] /\ Cqed.EJ self = [j0] /\ Cqed.ng self = [n0] /\
    nqubits self = 1%nat /\ N self = [single_N nmax] /\
    HJJ self = [single_HJJ nmax] /\
    Hcap self = Val (capacitive_term (sp_eye ((2 * nmax + 1) ^ 1))
                       (n0, e0, single_N nmax)).
Proof.
  unfold init.
  destruct (broadcast1 Ec 1) as [Ec'|]; simpl; [|done].
  destruct (broadcast1 ng 1) as [ng'|]; simpl; [|done].
  destruct (broadcast1 EJ 1) as [EJ'|]; simpl; [|done].
  case_decide as Hlen; [|done]. destruct Hlen as (HEc & Hng & HEJ).
  destruct (length_one EJ' HEJ) as [j0 ->].
  destruct (length_one ng' Hng) as [n0 ->].
  destruct (length_one Ec' HEc) as [e0 ->].
  simpl.
  destruct (broadcast2 g 1) as [g'|]; simpl; [|done].
  destruct (nd_add g' (nd_T g')) as [gs|]; simpl; [|done].
  intros [= <-]. exists e0, j0, n0. simpl. done.
Qed.

Lemma single_qubit_entries nmax (e0 j0 n0 : Qc) (i j : nat) :
  (i < 2 * nmax + 1)%nat -> (j < 2 * nmax + 1)%nat ->
  sp_at (sp_add (capacitive_term (sp_eye ((2 * nmax + 1) ^ 1)) (n0, e0, single_N nmax))
           (sp_scale (- j0) (single_HJJ nmax))) i j
  = if decide (i = j) then Qc_of_Z 4 * e0 * ((charge nmax i - n0) * (charge nmax i - n0))
    else if decide (i = S j \/ j = S i) then - j0 / 2
    else 0.
Proof.
  intros Hi Hj.
  assert (sp_diag (sp_sub (single_N nmax) (sp_scale n0 (sp_eye ((2 * nmax + 1) ^ 1)))))
    as Hdiag.
  { apply sp_sub_diag; [|apply sp_scale_diag, sp_eye_diag].
    apply sp_kron_diag; [done|apply sp_eye_diag|].
    apply sp_kron_diag; [done|apply number_operator_diag|apply sp_eye_diag]. }
  assert (forall a b, (a < 2 * nmax + 1)%nat -> (b < 2 * nmax + 1)%nat ->
            sp_at (sp_sub (single_N nmax) (sp_scale n0 (sp_eye ((2 * nmax + 1) ^ 1)))) a b
            = if decide (a = b) then charge nmax a - n0 else 0) as HX.
  { intros a b Ha Hb. cbn [sp_at sp_sub sp_scale]. unfold single_N.
    rewrite lifted_single_entry by done.
    unfold number_operator, charge. cbn [sp_at sp_diags sp_eye].
    rewrite Nat.pow_1_r.
    destruct (decide (a = b)) as [->|Hne].
    - rewrite !decide_True by (repeat split; lia). ring.
    - rewrite !decide_False by (intros [? _]; lia). ring. }
  unfold capacitive_term, sp_sq. cbn [sp_at sp_add sp_scale].
  rewrite sp_mul_diag_entry; [|exact Hdiag|].
  2:{ cbn [sp_cols sp_sub single_N sp_kron sp_eye number_operator sp_diags]. lia. }
  rewrite !HX by done. unfold single_HJJ. rewrite lifted_single_entry by done.
  unfold raising_operator. cbn [sp_at sp_div sp_add sp_T sp_diags].
  rewrite (decide_True (P := i = i)) by done.
  destruct (decide (i = j)) as [->|Hne].
  - rewrite !decide_False by (intros [? _]; lia). field. done.
  - destruct (decide (i = S j \/ j = S i)) as [[->| ->]|Hfar].
    + rewrite (decide_False (P := j = (S j + 1)%nat /\ _)) by (intros [? _]; lia).
      rewrite decide_True by (repeat split; lia). field. done.
    + rewrite decide_True by (repeat split; lia).
      rewrite decide_False by (intros [? _]; lia). field. done.
    + rewrite !decide_False by (intros [? _]; lia). field. done.
Qed.

(** X10.  For a single qubit the constructor stores one value of each
    parameter, and [hamiltonian()] is the tridiagonal matrix of the
    transmon in the charge basis: on the diagonal, at the basis state of
    charge [n = i - nmax], the charging energy [4 Ec (n - ng)^2]; next to
    the diagonal the tunneling amplitude [-EJ/2]; zero elsewhere.  The
    coupling [g] given to the constructor has no effect on it. *)
Theorem single_qubit_hamiltonian nmax (Ec EJ : param) (g : coupling) (ng : param) self :
  init 1 Ec EJ g ng nmax = Ok self ->
  exists e0 j0 n0 H,
    Cqed.Ec self = [e0] /\ Cqed.EJ self = [j0] /\ Cqed.ng self = [n0] /\
    hamiltonian self = Val H /\
    sp_rows H = (2 * nmax + 1)%nat /\ sp_cols H = (2 * nmax + 1)%nat /\
    forall i j, (i < 2 * nmax + 1)%nat -> (j < 2 * nmax + 1)%nat ->
      sp_at H i j
      = if decide (i = j) then
          Qc_of_Z 4 * e0 * ((charge nmax i - n0) * (charge nmax i - n0))
        else if decide (i = S j \/ j = S i) then - j0 / 2
        else 0.
Proof.
  intros Hinit.
  destruct (init_single _ _ _ _ _ _ Hinit)
    as (e0 & j0 & n0 & HEc & HEJ & Hng & Hn & HN & HJ & HH).
  exists e0, j0, n0. eexists. split; [done|]. split; [done|]. split; [done|].
  split; [|split; [|split]].
  - unfold hamiltonian, coupled_pairs. rewrite HH, HEJ, HJ, Hn. simpl. reflexivity.
  - cbn [sp_rows sp_add capacitive_term sp_scale sp_sq sp_mul sp_sub single_N sp_kron
         sp_eye number_operator sp_diags]. lia.
  - cbn [sp_cols sp_add capacitive_term sp_scale sp_sq sp_mul sp_sub single_N sp_kron
         sp_eye number_operator sp_diags]. lia.
  - intros i j Hi Hj. by apply single_qubit_entries.
Qed.

Lemma single_qubit_hamiltonian_witness :
  exists self e0 j0 n0 H,
    init 1 (Scalar 1) (Scalar 2) (GScalar 0) (Scalar 0) 1 = Ok self /\
    Cqed.Ec self = [e0] /\ Cqed.EJ self = [j0] /\ Cqed.ng self = [n0] /\
    hamiltonian self = Val H /\ sp_at H 0%nat 1%nat = - j0 / 2.
Proof.
  assert (is_ok (init 1 (Scalar 1) (Scalar 2) (GScalar 0) (Scalar 0) 1)) as Hok
    by (vm_compute; exact I).
  destruct (init 1 (Scalar 1) (Scalar 2) (GScalar 0) (Scalar 0) 1)
    as [self|] eqn:Hinit; [|done].
  destruct (single_qubit_hamiltonian _ _ _ _ _ _ Hinit)
    as (e0 & j0 & n0 & H & HEc & HEJ & Hng & HH & _ & _ & Hent).
  exists self, e0, j0, n0, H. repeat (split; [done|]).
  rewrite (Hent 0%nat 1%nat) by lia. done.
Defined.
(** ** Lengths of the parameters *)

Lemma broadcast1_length (p : param) (n : nat) (l : list Qc) :
  broadcast1 p n = Ok l -> n ≠ 1%nat -> length l = n.
Proof.
  destruct p as [v|a]; simpl.
  - intros [= <-] _. by rewrite length_replicate.
  - repeat case_decide; intros [= <-] Hn; try done. by rewrite length_replicate.
Qed.

Lemma broadcast1_single (a : list Qc) : broadcast1 (Array a) 1 = Ok a.
Proof. simpl. by repeat case_decide. Qed.

Lemma bshape_n (a n r : nat) : bshape a n = Ok r -> n ≠ 1%nat -> r = n.
Proof. unfold bshape. repeat case_decide; intros [= <-] Hn; congruence. Qed.

Lemma symmetrised_shape (gc : coupling) (n : nat) (G gs : ndarray2) :
  broadcast2 gc n = Ok G -> nd_add G (nd_T G) = Ok gs -> n ≠ 1%nat ->
  nd_rows gs = n /\ nd_cols gs = n.
Proof.
  unfold broadcast2, nd_mul, nd_add, nd_zip. simpl. intros HG Hgs Hn.
  destruct (bshape (nd_rows (coupling_array gc)) n) as [r|] eqn:Hr; simpl in HG; [|done].
  destruct (bshape (nd_cols (coupling_array gc)) n) as [c|] eqn:Hc; simpl in HG; [|done].
  apply bshape_n in Hr; [|done]. apply bshape_n in Hc; [|done]. subst r c.
  injection HG as <-. simpl in Hgs.
  unfold bshape in Hgs. rewrite !decide_True in Hgs by done. simpl in Hgs.
  by injection Hgs as <-.
Qed.

Lemma init_lengths_ok nqubits Ec EJ g ng nmax self :
  init nqubits Ec EJ g ng nmax = Ok self -> lengths_ok self.
Proof.
  unfold init.
  destruct (broadcast1 Ec nqubits) as [Ec'|]; simpl; [|done].
  destruct (broadcast1 ng nqubits) as [ng'|]; simpl; [|done].
  destruct (broadcast1 EJ nqubits) as [EJ'|]; simpl; [|done].
  case_decide as Hlen; [|done]. destruct Hlen as (HEc & Hng & HEJ).
  destruct (map_result _ (seq 0 nqubits)) as [Ns|] eqn:HNs; simpl; [|done].
  destruct (map_result _ (zip _ EJ')) as [HJJ'|] eqn:HHJJ; simpl; [|done].
  destruct (broadcast2 g nqubits) as [g'|] eqn:Hg; simpl; [|done].
  destruct (nd_add g' (nd_T g')) as [gs|] eqn:Hgs; simpl; [|done].
  intros [= <-]. unfold lengths_ok. simpl.
  apply map_result_Forall2, Forall2_length in HNs, HHJJ.
  rewrite length_seq in HNs.
  rewrite length_zip, length_seq, Nat.min_id in HHJJ.
  repeat split; try congruence.
  - by apply (symmetrised_shape g nqubits g' gs).
  - by apply (symmetrised_shape g nqubits g' gs).
Qed.

Lemma tune_lengths_ok self EJ g out :
  tune self EJ g = Ok out -> lengths_ok self -> lengths_ok out.
Proof.
  unfold tune, lengths_ok. intros Hout (HEc & Hng & HN & HJ & Hrest).
  destruct EJ as [EJ|]; simpl in Hout.
  - destruct (broadcast1 EJ (nqubits self)) as [EJ'|] eqn:HEJ; simpl in Hout; [|done].
    destruct g as [g|]; simpl in Hout.
    + destruct (broadcast2 g (nqubits self)) as [g'|] eqn:Hg; simpl in Hout; [|done].
      destruct (nd_add g' (nd_T g')) as [gs|] eqn:Hgs; simpl in Hout; [|done].
      injection Hout as <-. simpl. repeat split; try done.
      * by apply (broadcast1_length EJ).
      * by apply (symmetrised_shape g _ g' gs).
      * by apply (symmetrised_shape g _ g' gs).
    + injection Hout as <-. simpl. repeat split; try done.
      * by apply (broadcast1_length EJ).
      * by apply Hrest.
      * by apply Hrest.
  - destruct g as [g|]; simpl in Hout.
    + destruct (broadcast2 g (nqubits self)) as [g'|] eqn:Hg; simpl in Hout; [|done].
      destruct (nd_add g' (nd_T g')) as [gs|] eqn:Hgs; simpl in Hout; [|done].
      injection Hout as <-. simpl. repeat split; try done.
      * by apply Hrest.
      * by apply (symmetrised_shape g _ g' gs).
      * by apply (symmetrised_shape g _ g' gs).
    + by injection Hout as <-.
Qed.

Lemma instance_lengths_ok self : instance self -> lengths_ok self.
Proof.
  induction 1 as [n Ec EJ g ng nmax self Hinit | self EJ g out _ IH Htune].
  - by apply (init_lengths_ok _ _ _ _ _ _ _ Hinit).
  - by apply (tune_lengths_ok _ _ _ _ Htune).
Qed.

(** X11.  In every [Transmons] object, from the constructor or from any
    number of calls of [tune], [Ec], [ng], [N] and [HJJ] hold one entry
    per qubit; with a number of qubits other than one, [EJ] also holds
    one entry per qubit and [g] is an [nqubits] by [nqubits] array, even
    though [tune] does not repeat the [assert] of the constructor. *)
Theorem instance_lengths (self : Transmons) :
  instance self ->
  length (Ec self) = nqubits self /\ length (ng self) = nqubits self /\
  length (N self) = nqubits self /\ length (HJJ self) = nqubits self /\
  (nqubits self ≠ 1%nat ->
   length (EJ self) = nqubits self /\
   nd_rows (g self) = nqubits self /\ nd_cols (g self) = nqubits self).
Proof.
  induction 1 as [n Ec EJ g ng nmax self Hinit | self EJ g out _ IH Htune].
  - exact (init_lengths_ok _ _ _ _ _ _ _ Hinit).
  - exact (tune_lengths_ok _ _ _ _ Htune IH).
Qed.

Lemma instance_lengths_witness :
  exists self out,
    init 2 (Scalar 1) (Scalar 1) (GScalar 1) (Scalar 0) 1 = Ok self /\
    tune self (Some (Array [1; 2])) None = Ok out /\
    length (EJ out) = 2%nat /\ nd_rows (g out) = 2%nat.
Proof.
  assert (is_ok (self ← init 2 (Scalar 1) (Scalar 1) (GScalar 1) (Scalar 0) 1;
                 tune self (Some (Array [1; 2])) None)) as Hok
    by (vm_compute; exact I).
  destruct (init 2 (Scalar 1) (Scalar 1) (GScalar 1) (Scalar 0) 1)
    as [self|] eqn:Hinit; [|done].
  simpl in Hok.
  destruct (tune self (Some (Array [1; 2])) None) as [out|] eqn:Htune; [|done].
  exists self, out. split; [done|]. split; [done|].
  destruct (init_parameters _ _ _ _ _ _ _ Hinit) as (_ & _ & _ & Hn & _).
  destruct (tune_fields _ _ _ _ Htune) as (Hn' & _).
  destruct (instance_lengths out
              (instance_tune _ _ _ _ (instance_init _ _ _ _ _ _ _ Hinit) Htune))
    as (_ & _ & _ & _ & Hrest).
  rewrite Hn', Hn in Hrest. destruct Hrest as (H1 & H2 & _); [lia|]. done.
Defined.

(** X12.  With a single qubit, [tune] stores an [EJ] array of any
    length as it is: broadcasting against [np.ones(1)] keeps the array,
    and [tune] has no [assert].  [hamiltonian()] of the tuned object
    reads the first value only, through its [zip] with the one
    tunneling operator, and no value at all when the array is empty. *)
Theorem tune_single_qubit_any_length (self : Transmons) (a : list Qc) :
  instance self -> nqubits self = 1%nat ->
  tune self (Some (Array a)) None = Ok (with_EJ self a) /\
  hamiltonian (with_EJ self a) = hamiltonian (with_EJ self (take 1 a)).
Proof.
  intros Hinst Hn. split.
  - unfold tune.
    assert (broadcast1 (Array a) (nqubits self) = Ok a) as ->
      by (rewrite Hn; apply broadcast1_single).
    reflexivity.
  - destruct (instance_lengths_ok self Hinst) as (_ & _ & _ & HJ & _).
    rewrite Hn in HJ. destruct (length_one _ HJ) as [h Hh].
    unfold hamiltonian, coupled_pairs. simpl. rewrite Hh.
    by destruct a as [|e [|e' a]].
Qed.

Lemma tune_single_qubit_any_length_witness :
  exists self,
    init 1 (Scalar 1) (Scalar 2) (GScalar 0) (Scalar 0) 1 = Ok self /\
    tune self (Some (Array [1; 2; 1])) None = Ok (with_EJ self [1; 2; 1]) /\
    hamiltonian (with_EJ self [1; 2; 1]) = hamiltonian (with_EJ self [1]).
Proof.
  assert (is_ok (init 1 (Scalar 1) (Scalar 2) (GScalar 0) (Scalar 0) 1)) as Hok
    by (vm_compute; exact I).
  destruct (init 1 (Scalar 1) (Scalar 2) (GScalar 0) (Scalar 0) 1)
    as [self|] eqn:Hinit; [|done].
  exists self. split; [done|].
  destruct (init_parameters _ _ _ _ _ _ _ Hinit) as (_ & _ & _ & Hn & _).
  exact (tune_single_qubit_any_length self [1; 2; 1]
           (instance_init _ _ _ _ _ _ _ Hinit) Hn).
Defined.

(** ** Calls of [tune] one after the other *)





(** ** [apply] is linear *)





(** ** Transition frequencies *)

Lemma Qcle_shift (l0 x y : Qc) : x ≤ y -> x - l0 ≤ y - l0.
Proof. intros Hxy. unfold Qcminus. by apply Qcplus_le_compat; [|apply Qcle_refl]. Qed.

Lemma Qcle_gap (l0 x : Qc) : l0 ≤ x -> 0 ≤ x - l0.
Proof. intros Hx. replace 0 with (l0 - l0) by ring. by apply Qcle_shift. Qed.

Lemma Sorted_Qcle_head (l0 : Qc) (rest : list Qc) :
  Sorted Qcle (l0 :: rest) -> Forall (Qcle l0) rest /\ Sorted Qcle rest.
Proof.
  intros Hs. split; [|by inversion Hs].
  apply Sorted_StronglySorted in Hs; [|intros ? ? ?; apply Qcle_trans].
  by inversion Hs.
Qed.

(** X15.  When the solver gives the [n+1] values it is asked for,
    [frequencies(n)] returns, for [n = 1], the gap between the two lowest
    values, which is not negative; for [n > 1], [n] gaps to the lowest
    value, none negative, in ascending order; and for [n = 0] it raises
    [IndexError], because the one value has no successor. *)
Theorem frequencies_gaps (eigsh_values : Transmons -> nat -> list Qc)
    (self : Transmons) (n : nat) :
  length (eigsh_values self (n + 1)%nat) = (n + 1)%nat ->
  let lam := Tools.lowest_eigenvalues eigsh_values self (n + 1) in
  match frequencies eigsh_values self n with
  | Raise e => n = O /\ e = IndexError
  | Ok (Gap x) => n = 1%nat /\ 0 ≤ x /\ exists l0 l1, lam = [l0; l1] /\ x = l1 - l0
  | Ok (Gaps l) =>
      (1 < n)%nat /\ length l = n /\ Forall (Qcle 0) l /\ Sorted Qcle l /\
      exists l0 rest, lam = l0 :: rest /\ l = (fun v => v - l0) <$> rest
  end.
Proof.
  intros Hlen lam. unfold frequencies. fold lam.
  assert (Sorted Qcle lam) as Hs by apply ToolsFacts.np_sort_sorted.
  assert (length lam = (n + 1)%nat) as Hl.
  { unfold lam, Tools.lowest_eigenvalues. by rewrite ToolsFacts.np_sort_perm. }
  clearbody lam. case_decide as Hn.
  - destruct lam as [|l0 rest]; [simpl in Hl; lia|]. simpl.
    destruct (Sorted_Qcle_head l0 rest Hs) as [Hhd Hrest].
    rewrite drop_0. split; [done|]. split; [|split; [|split]].
    + rewrite length_fmap. simpl in Hl. lia.
    + rewrite Forall_fmap. eapply Forall_impl; [exact Hhd|]. intros v Hv. simpl.
      by apply Qcle_gap.
    + apply Sorted_fmap with (R1 := Qcle); [|done]. intros v w. apply Qcle_shift.
    + by exists l0, rest.
  - destruct lam as [|l0 [|l1 [|l2 rest]]]; simpl in *; try lia.
    + split; [lia|done].
    + destruct (Sorted_Qcle_head l0 [l1] Hs) as [Hhd _].
      apply Forall_inv in Hhd. split; [lia|]. split; [by apply Qcle_gap|].
      by exists l0, l1.
Qed.

Lemma frequencies_gaps_witness :
  exists self l,
    init 1 (Scalar 1) (Scalar 2) (GScalar 0) (Scalar 0) 1 = Ok self /\
    frequencies (fun _ _ => [Qc_of_Z 3; 1; 2]) self 2 = Ok (Gaps l) /\
    length l = 2%nat /\ Forall (Qcle 0) l /\ Sorted Qcle l.
Proof.
  assert (is_ok (init 1 (Scalar 1) (Scalar 2) (GScalar 0) (Scalar 0) 1)) as Hok
    by (vm_compute; exact I).
  destruct (init 1 (Scalar 1) (Scalar 2) (GScalar 0) (Scalar 0) 1)
    as [self|] eqn:Hinit; [|done].
  pose proof (frequencies_gaps (fun _ _ => [Qc_of_Z 3; 1; 2]) self 2 eq_refl) as HF.
  cbv zeta in HF.
  destruct (frequencies (fun _ _ => [Qc_of_Z 3; 1; 2]) self 2) as [[x|l]|e] eqn:Hf.
  - destruct HF as [Hn _]. discriminate Hn.
  - exists self, l. destruct HF as (_ & H1 & H2 & H3 & _).
    split; [reflexivity|]. split; [exact Hf|].
    split; [exact H1|]. split; [exact H2|exact H3].
  - destruct HF as [Hn _]. discriminate Hn.
Defined.

End CqedOpsFacts.

(* ===================================================================== *)
(** * The two spectrum functions of seeq/tools.py against each other *)
(* ===================================================================== *)

Module SpectrumFacts.
Import Py Linalg Tools ToolsFacts.

Lemma take_idx_argsort_perm (a : list Qc) : take_idx a (np_argsort a) ≡ₚ a.
Proof.
  rewrite take_idx_argsort, sort_by_perm. rewrite fst_zip; [done|].
  rewrite length_seq. done.
Qed.

(** Indexing with [np.argsort] gives what [np.sort] gives. *)
Lemma take_idx_argsort_sort (a : list Qc) : take_idx a (np_argsort a) = np_sort a.
Proof.
  apply (Sorted_unique Qcle).
  - apply take_idx_argsort_sorted.
  - apply np_sort_sorted.
  - by rewrite take_idx_argsort_perm, np_sort_perm.
Qed.

(** X16.  When the solver finds the same eigenvalues with and without
    eigenvectors, in whatever order each time, the eigenvalues that
    [lowest_eigenstates] returns are the array that [lowest_eigenvalues]
    returns. *)
Theorem lowest_eigen_values_agree {operator : Type}
    (eigsh_vectors : operator -> nat -> list Qc * Mat)
    (eigsh_values : operator -> nat -> list Qc)
    (H : operator) (neig : nat) :
  (eigsh_vectors H neig).1 ≡ₚ eigsh_values H neig ->
  (lowest_eigenstates eigsh_vectors H neig).1 = lowest_eigenvalues eigsh_values H neig.
Proof.
  intros Hperm. unfold lowest_eigenstates, lowest_eigenvalues.
  destruct (eigsh_vectors H neig) as [lam ψ]. simpl in *.
  rewrite take_idx_argsort_sort. by apply np_sort_order_irrelevant.
Qed.

Lemma lowest_eigen_values_agree_witness :
  let vals := (fun (_ : unit) (_ : nat) => [Qc_of_Z 3; Qc_of_Z 1; Qc_of_Z 2]) in
  let vecs := (fun (_ : unit) (_ : nat) =>
                 ([Qc_of_Z 2; Qc_of_Z 3; Qc_of_Z 1],
                  (fun (_ c : nat) => Qc_of_Z (Z.of_nat c)))) in
  (vecs tt 3%nat).1 ≡ₚ vals tt 3%nat /\
  (lowest_eigenstates vecs tt 3).1 = lowest_eigenvalues vals tt 3.
Proof.
  intros vals vecs.
  assert ((vecs tt 3%nat).1 ≡ₚ vals tt 3%nat) as Hperm.
  { unfold vecs, vals. simpl. solve_Permutation. }
  split; [exact Hperm|]. exact (lowest_eigen_values_agree vecs vals tt 3 Hperm).
Defined.

End SpectrumFacts.
